(** * Randomised Kruskal maze generation: a shallow embedding of
    [kruskal_maze.py] and the properties of its generation loop.

    Python integers are [Z]; lists are [list]; an exception, a random source
    that runs dry and a value [random.randint] cannot return are the three
    abnormal outcomes of the [result] monad.  Of the window code only the
    integer arithmetic of the window size is kept, since it can raise; the
    canvas and the animation delay never feed back into the grid, the
    disjoint set or the candidate list. *)

From Stdlib Require Import ZArith List Bool Lia Permutation.
Import ListNotations.
Local Open Scope Z_scope.

(** ** Outcomes *)

Inductive error : Type :=
| IndexError          (* list index out of range *)
| ValueError          (* random.randint on an empty range *)
| ZeroDivisionError   (* integer division by zero *)
| OutOfRange.         (* disjoint-set query on a cell it does not track *)

Inductive result (A : Type) : Type :=
| Ok (a : A)          (* normal completion *)
| Raise (e : error)   (* a Python exception propagates *)
| Starved             (* the random source ran dry while a loop was still running *)
| NotADraw.           (* the source offered a value outside randint's range *)

Arguments Ok {A} a.
Arguments Raise {A} e.
Arguments Starved {A}.
Arguments NotADraw {A}.

Definition bind {A B : Type} (m : result A) (k : A -> result B) : result B :=
  match m with
  | Ok a => k a
  | Raise e => Raise e
  | Starved => Starved
  | NotADraw => NotADraw
  end.

Notation "x <- m ;; k" := (bind m (fun x => k))
  (at level 61, m at next level, right associativity).
Notation "' p <- m ;; k" := (bind m (fun p => k))
  (at level 61, p pattern, m at next level, right associativity).

(** ** Python lists *)

Definition len {A : Type} (l : list A) : Z := Z.of_nat (length l).

(** [range(n)]: [0, 1, ..., n-1], empty when [n <= 0]. *)
Definition range (n : Z) : list Z := map Z.of_nat (seq 0 (Z.to_nat n)).

(** A negative index counts from the end; anything outside [-len, len) raises. *)
Definition norm_index {A : Type} (l : list A) (i : Z) : result nat :=
  let j := if i <? 0 then i + len l else i in
  if (j <? 0) || (len l <=? j) then Raise IndexError else Ok (Z.to_nat j).

(** [l[i]] *)
Definition getitem {A : Type} (l : list A) (i : Z) : result A :=
  j <- norm_index l i ;;
  match nth_error l j with
  | Some a => Ok a
  | None => Raise IndexError
  end.

(** [l[i] = v] *)
Definition setitem {A : Type} (l : list A) (i : Z) (v : A) : result (list A) :=
  j <- norm_index l i ;;
  Ok (firstn j l ++ v :: skipn (S j) l).

(** [l.pop(i)], the popped element dropped as the caller drops it. *)
Definition pop {A : Type} (l : list A) (i : Z) : result (list A) :=
  j <- norm_index l i ;;
  Ok (firstn j l ++ skipn (S j) l).

(** [random.randint(a, b)]: the next value of the random source is the
    answer, which the continuation [k] receives with the rest of the source. *)
Definition randint {A : Type} (a b : Z) (draws : list Z)
    (k : Z -> list Z -> result A) : result A :=
  if b <? a then Raise ValueError
  else match draws with
       | [] => Starved
       | r :: rest => if (a <=? r) && (r <=? b) then k r rest else NotADraw
       end.

(** ** Cells *)

Module Cell.
Record t : Type := mk { x : Z; y : Z }.

Definition eqb (a b : t) : bool := (x a =? x b) && (y a =? y b).
End Cell.

(** Membership test on a list of cells. *)
Definition mem (c : Cell.t) (l : list Cell.t) : bool := existsb (Cell.eqb c) l.

(** ** The disjoint set *)

Module DisjointSet.

(** Modelled from the spec: [disjoint_set.py] is not part of the sources.
    The structure maps every logical cell [(i, j)] of [[0, width) x
    [0, height)] to a parent pointer and a size, and keeps [set_count].
    The forest is held fully flattened: every parent pointer is the root of
    its tree, which is the state path compression converges to, so [find]
    is one lookup.  The generator hands over grid cells; grid cell
    [(2i+1, 2j+1)] stands for logical cell [(i, j)], and any other cell is
    out of range. *)
Record t : Type := mk {
  width : Z;
  height : Z;
  nodes : list (Cell.t * (Cell.t * Z));
  set_count : Z
}.

Definition logical_cells (w h : Z) : list Cell.t :=
  flat_map (fun j => map (fun i => Cell.mk i j) (range w)) (range h).

(** Modelled from the spec: [DisjointSet(width, height)]; every logical
    cell is its own component and [set_count] starts at [width * height]. *)
Definition make (w h : Z) : t :=
  {| width := w;
     height := h;
     nodes := map (fun c => (c, (c, 1))) (logical_cells w h);
     set_count := w * h |}.

(** Modelled from the spec: the logical cell a grid cell stands for. *)
Definition logical (ds : t) (c : Cell.t) : result Cell.t :=
  let i := (Cell.x c - 1) / 2 in
  let j := (Cell.y c - 1) / 2 in
  if (Cell.x c mod 2 =? 1) && (Cell.y c mod 2 =? 1)
     && (0 <=? i) && (i <? width ds) && (0 <=? j) && (j <? height ds)
  then Ok (Cell.mk i j)
  else Raise OutOfRange.

Fixpoint lookup (c : Cell.t) (l : list (Cell.t * (Cell.t * Z)))
  : result (Cell.t * Z) :=
  match l with
  | [] => Raise OutOfRange
  | (k, v) :: l' => if Cell.eqb c k then Ok v else lookup c l'
  end.

(** Modelled from the spec: [find(cell)], the representative of the cell's
    component. *)
Definition find (ds : t) (c : Cell.t) : result Cell.t :=
  l <- logical ds c ;;
  '(r, _) <- lookup l (nodes ds) ;;
  Ok r.

(** Every node hanging under [small] is hung under [big], whose size
    becomes [n]. *)
Definition link (small big : Cell.t) (n : Z)
    (l : list (Cell.t * (Cell.t * Z))) : list (Cell.t * (Cell.t * Z)) :=
  map (fun '(k, (p, s)) =>
         (k, (if Cell.eqb p small then big else p,
              if Cell.eqb k big then n else s))) l.

(** Modelled from the spec: [union(a, b)]; a no-op answering [false] when
    both cells have one representative, otherwise the smaller tree is linked
    under the larger and [set_count] drops by one. *)
Definition union (ds : t) (a b : Cell.t) : result (bool * t) :=
  ra <- find ds a ;;
  rb <- find ds b ;;
  if Cell.eqb ra rb then Ok (false, ds)
  else
    '(_, sa) <- lookup ra (nodes ds) ;;
    '(_, sb) <- lookup rb (nodes ds) ;;
    let '(small, big) := if sa <? sb then (ra, rb) else (rb, ra) in
    Ok (true,
        {| width := width ds;
           height := height ds;
           nodes := link small big (sa + sb) (nodes ds);
           set_count := set_count ds - 1 |}).

End DisjointSet.

(** ** The maze *)

Definition CELL_WALL : Z := 1.
Definition CELL_PASSAGE : Z := 0.

Record KruskalMaze : Type := mkKruskalMaze {
  maze_width : Z;
  maze_height : Z;
  maze : list (list Z);
  disjoint_set : DisjointSet.t
}.

(** [maze[y][x]] *)
Definition cell_at (m : list (list Z)) (x y : Z) : result Z :=
  row <- getitem m y ;;
  getitem row x.

(** [maze[y][x] = v] *)
Definition set_cell (m : list (list Z)) (x y v : Z) : result (list (list Z)) :=
  row <- getitem m y ;;
  row' <- setitem row x v ;;
  setitem m y row'.

(** The inner loop of [__init__]: one row of the grid. *)
Definition init_row (maze_width y : Z) : list Z :=
  fold_left
    (fun row x =>
       if (x mod 2 =? 1) && (y mod 2 =? 1)
       then row ++ [CELL_PASSAGE]
       else row ++ [CELL_WALL])
    (range maze_width) [].

(** The fields [KruskalMaze.__init__] sets before it opens the window:
    the grid and the disjoint set. *)
Definition init (width height : Z) : KruskalMaze :=
  let maze_width := width * 2 + 1 in
  let maze_height := height * 2 + 1 in
  {| maze_width := maze_width;
     maze_height := maze_height;
     maze := fold_left (fun m y => m ++ [init_row maze_width y])
                       (range maze_height) [];
     disjoint_set := DisjointSet.make width height |}.

(** [KruskalMaze.is_wall_removable]; [or] evaluates left to right and stops at
    the first true operand. *)
Definition is_wall_removable (self : KruskalMaze) (cell : Cell.t) : result bool :=
  let x := Cell.x cell in
  let y := Cell.y cell in
  v <- cell_at (maze self) x y ;;
  if v =? CELL_WALL then
    if (x =? 0) || (x =? maze_width self - 1)
       || (y =? 0) || (y =? maze_height self - 1)
    then Ok false
    else
      up <- cell_at (maze self) x (y - 1) ;;
      if up =? CELL_PASSAGE then Ok true else
      down <- cell_at (maze self) x (y + 1) ;;
      if down =? CELL_PASSAGE then Ok true else
      left <- cell_at (maze self) (x - 1) y ;;
      if left =? CELL_PASSAGE then Ok true else
      right <- cell_at (maze self) (x + 1) y ;;
      if right =? CELL_PASSAGE then Ok true else
      Ok false
  else Ok false.

(** The cells visited by [for y in range(h): for x in range(w)]. *)
Definition grid_cells (w h : Z) : list Cell.t :=
  flat_map (fun y => map (fun x => Cell.mk x y) (range w)) (range h).

(** The scan that fills [removable_walls]. *)
Fixpoint scan_walls (self : KruskalMaze) (cells acc : list Cell.t)
  : result (list Cell.t) :=
  match cells with
  | [] => Ok acc
  | cell :: cells' =>
      b <- is_wall_removable self cell ;;
      scan_walls self cells' (if b then acc ++ [cell] else acc)
  end.

Definition build_removable_walls (self : KruskalMaze) : result (list Cell.t) :=
  scan_walls self (grid_cells (maze_width self) (maze_height self)) [].

(** The two cells on either side of a wall. *)
Definition adjacent_cells (wall : Cell.t) : Cell.t * Cell.t :=
  if Cell.x wall mod 2 =? 1
  then (Cell.mk (Cell.x wall) (Cell.y wall - 1),
        Cell.mk (Cell.x wall) (Cell.y wall + 1))
  else (Cell.mk (Cell.x wall - 1) (Cell.y wall),
        Cell.mk (Cell.x wall + 1) (Cell.y wall)).

(** State of the generation loop: the object, the local [removable_walls],
    and the trace of walls handed to [draw_maze], oldest first. *)
Record state : Type := mkState {
  self : KruskalMaze;
  removable_walls : list Cell.t;
  removed_walls : list Cell.t
}.

(** [self.disjoint_set.set_count > 1 and removable_walls] *)
Definition loop_guard (s : state) : bool :=
  (1 <? DisjointSet.set_count (disjoint_set (self s)))
  && negb (len (removable_walls s) =? 0).

(** The body of the [while] loop once [wall_index] has been drawn. *)
Definition loop_body (wall_index : Z) (s : state) : result state :=
  wall <- getitem (removable_walls s) wall_index ;;
  let '(cell1, cell2) := adjacent_cells wall in
  r1 <- DisjointSet.find (disjoint_set (self s)) cell1 ;;
  r2 <- DisjointSet.find (disjoint_set (self s)) cell2 ;;
  if negb (Cell.eqb r1 r2) then
    maze' <- set_cell (maze (self s)) (Cell.x wall) (Cell.y wall) CELL_PASSAGE ;;
    '(_, ds') <- DisjointSet.union (disjoint_set (self s)) cell1 cell2 ;;
    walls' <- pop (removable_walls s) wall_index ;;
    Ok {| self := {| maze_width := maze_width (self s);
                     maze_height := maze_height (self s);
                     maze := maze';
                     disjoint_set := ds' |};
          removable_walls := walls';
          removed_walls := removed_walls s ++ [wall] |}
  else Ok s.

(** The [while] loop; the rest of the random source is handed back. *)
Fixpoint generation_loop (draws : list Z) (s : state) : result (state * list Z) :=
  if loop_guard s then
    randint 0 (len (removable_walls s) - 1) draws (fun wall_index rest =>
      s' <- loop_body wall_index s ;;
      generation_loop rest s')
  else Ok (s, draws).

(** One of the two drawing loops of [mark_start_end_cells]: draw a cell
    until it is a passage and, for the end cell, differs from the start. *)
Fixpoint draw_cell (self : KruskalMaze) (start : option Cell.t) (draws : list Z)
  : result (Cell.t * list Z) :=
  randint 1 (maze_width self - 2) draws (fun cx draws1 =>
    randint 1 (maze_height self - 2) draws1 (fun cy rest =>
      v <- cell_at (maze self) cx cy ;;
      if negb (v =? CELL_PASSAGE)
         || match start with
            | Some c => (Cell.x c =? cx) && (Cell.y c =? cy)
            | None => false
            end
      then draw_cell self start rest
      else Ok (Cell.mk cx cy, rest))).

(** [KruskalMaze.mark_start_end_cells]: the start and the end cell drawn. *)
Definition mark_start_end_cells (self : KruskalMaze) (draws : list Z)
  : result (Cell.t * Cell.t * list Z) :=
  '(start, draws1) <- draw_cell self None draws ;;
  '(end_, draws2) <- draw_cell self (Some start) draws1 ;;
  Ok (start, end_, draws2).

(** The state the loop starts from. *)
Definition initial_state (width height : Z) : result state :=
  let obj := init width height in
  walls <- build_removable_walls obj ;;
  Ok {| self := obj; removable_walls := walls; removed_walls := [] |}.

(** [generate_maze_kruskal] on a fresh object. *)
Definition generate_maze_kruskal (width height : Z) (draws : list Z)
  : result (state * Cell.t * Cell.t) :=
  s0 <- initial_state width height ;;
  '(s, draws') <- generation_loop draws s0 ;;
  '(start, end_, _) <- mark_start_end_cells (self s) draws' ;;
  Ok (s, start, end_).

Definition WINDOW_SIZE : Z := 750.

(** [a // b] *)
Definition floordiv (a b : Z) : result Z :=
  if b =? 0 then Raise ZeroDivisionError else Ok (a / b).

(** The width and height [__init__] gives the window and the canvas. *)
Definition window_size (width height : Z) : result (Z * Z) :=
  if height <? width then
    h <- floordiv (WINDOW_SIZE * height) width ;;
    Ok (WINDOW_SIZE, h)
  else
    w <- floordiv (WINDOW_SIZE * width) height ;;
    Ok (w, WINDOW_SIZE).

(** [KruskalMaze.__init__] up to [mainloop]: the fields are set, the window
    is sized, then [generate_maze_kruskal] runs.  The calls into tkinter are
    taken to succeed. *)
Definition KruskalMaze_init (width height : Z) (draws : list Z)
  : result (state * Cell.t * Cell.t) :=
  _ <- window_size width height ;;
  generate_maze_kruskal width height draws.


(** ** Vocabulary of the statements *)

(** Both coordinates odd: the cells [__init__] makes passages. *)
Definition odd_odd (x y : Z) : bool := (x mod 2 =? 1) && (y mod 2 =? 1).

(** An interior cell of the grid of a [width] by [height] maze with exactly
    one even coordinate. *)
Definition candidateb (width height : Z) (c : Cell.t) : bool :=
  (1 <=? Cell.x c) && (Cell.x c <=? 2 * width - 1)
  && (1 <=? Cell.y c) && (Cell.y c <=? 2 * height - 1)
  && negb (Bool.eqb (Cell.x c mod 2 =? 1) (Cell.y c mod 2 =? 1)).

(** A cell on the outer border of the grid. *)
Definition on_border (width height x y : Z) : Prop :=
  x = 0 \/ x = 2 * width \/ y = 0 \/ y = 2 * height.

(** A list of [mh] rows of [mw] cells each. *)
Definition shaped (mw mh : Z) (m : list (list Z)) : Prop :=
  len m = mh /\ forall row, In row m -> len row = mw.

(** The value of cell [(x, y)] once the walls of [removed] are breached. *)
Definition expected (removed : list Cell.t) (x y : Z) : Z :=
  if odd_odd x y || mem (Cell.mk x y) removed then CELL_PASSAGE else CELL_WALL.

(** A grid cell that stands for a logical cell of a [width] by [height]
    disjoint set: both coordinates odd, strictly inside the grid. *)
Definition in_range (width height : Z) (c : Cell.t) : Prop :=
  Cell.x c mod 2 = 1 /\ Cell.y c mod 2 = 1
  /\ 1 <= Cell.x c <= 2 * width - 1 /\ 1 <= Cell.y c <= 2 * height - 1.

(** The logical cell behind an in-range grid cell. *)
Definition to_logical (c : Cell.t) : Cell.t :=
  Cell.mk ((Cell.x c - 1) / 2) ((Cell.y c - 1) / 2).

(** A node that is its own parent. *)
Definition is_root (e : Cell.t * (Cell.t * Z)) : bool :=
  Cell.eqb (fst e) (fst (snd e)).

(** The parent pointer [link] writes. *)
Definition relabel (small big p : Cell.t) : Cell.t :=
  if Cell.eqb p small then big else p.

(** Consistency of the disjoint set: it tracks exactly the logical cells,
    every parent is a root, and [set_count] counts the roots. *)
Record ds_wf (w h : Z) (ds : DisjointSet.t) : Prop := {
  wf_width : DisjointSet.width ds = w;
  wf_height : DisjointSet.height ds = h;
  wf_keys : map fst (DisjointSet.nodes ds) = DisjointSet.logical_cells w h;
  wf_flat : forall k p s, In (k, (p, s)) (DisjointSet.nodes ds) ->
            exists s', In (p, (p, s')) (DisjointSet.nodes ds);
  wf_count : DisjointSet.set_count ds
             = len (filter is_root (DisjointSet.nodes ds))
}.

(** Two grid cells the disjoint set puts in one component. *)
Definition connected (ds : DisjointSet.t) (a b : Cell.t) : Prop :=
  exists r, DisjointSet.find ds a = Ok r /\ DisjointSet.find ds b = Ok r.

(** The invariant of the generation loop of a [w] by [h] maze: the grid is
    the fresh grid with the walls of the trace breached; the candidate list
    and the trace are disjoint duplicate-free lists of interior walls with one
    even coordinate; the two sides of every such wall that has left the
    candidate list are connected; [set_count] has dropped once per breach. *)
Record Inv (w h : Z) (s : state) : Prop := {
  inv_width : maze_width (self s) = 2 * w + 1;
  inv_height : maze_height (self s) = 2 * h + 1;
  inv_shape : shaped (2 * w + 1) (2 * h + 1) (maze (self s));
  inv_cells : forall x y, 0 <= x < 2 * w + 1 -> 0 <= y < 2 * h + 1 ->
      cell_at (maze (self s)) x y = Ok (expected (removed_walls s) x y);
  inv_ds : ds_wf w h (disjoint_set (self s));
  inv_walls_nodup : NoDup (removable_walls s);
  inv_walls : forall c, In c (removable_walls s) -> candidateb w h c = true;
  inv_removed_nodup : NoDup (removed_walls s);
  inv_removed : forall c, In c (removed_walls s) ->
      candidateb w h c = true /\ ~ In c (removable_walls s);
  inv_edges : forall c, candidateb w h c = true ->
      In c (removable_walls s)
      \/ connected (disjoint_set (self s))
           (fst (adjacent_cells c)) (snd (adjacent_cells c));
  inv_count : DisjointSet.set_count (disjoint_set (self s))
              + len (removed_walls s) = w * h
}.

(** One breach: [s'] is [s] with [wall] moved from the candidate list to the
    trace, its grid cell made a passage and its two sides united. *)
Record breached (s : state) (wall : Cell.t) (s' : state) : Prop := {
  br_removed : removed_walls s' = removed_walls s ++ [wall];
  br_walls : Permutation (removable_walls s) (wall :: removable_walls s');
  br_count : DisjointSet.set_count (disjoint_set (self s'))
             = DisjointSet.set_count (disjoint_set (self s)) - 1;
  br_was_wall : cell_at (maze (self s)) (Cell.x wall) (Cell.y wall) = Ok CELL_WALL;
  br_cell : cell_at (maze (self s')) (Cell.x wall) (Cell.y wall) = Ok CELL_PASSAGE;
  br_others : forall x y,
      0 <= x < maze_width (self s) -> 0 <= y < maze_height (self s) ->
      x <> Cell.x wall \/ y <> Cell.y wall ->
      cell_at (maze (self s')) x y = cell_at (maze (self s)) x y
}.

(** The states the loop can be in: the initial state, and any state one
    iteration away from a reachable state whose guard holds, for any index
    [random.randint(0, len(removable_walls) - 1)] may return. *)
Inductive reachable (w h : Z) : state -> Prop :=
| reach_init (s0 : state) :
    initial_state w h = Ok s0 -> reachable w h s0
| reach_step (s s' : state) (wall_index : Z) :
    reachable w h s ->
    loop_guard s = true ->
    0 <= wall_index <= len (removable_walls s) - 1 ->
    loop_body wall_index s = Ok s' ->
    reachable w h s'.


(** Whether the disjoint set keeps the two sides of [wall] apart. *)
Definition separates (ds : DisjointSet.t) (wall : Cell.t) : bool :=
  match DisjointSet.find ds (fst (adjacent_cells wall)),
        DisjointSet.find ds (snd (adjacent_cells wall)) with
  | Ok r1, Ok r2 => negb (Cell.eqb r1 r2)
  | _, _ => false
  end.

(** The parent pointer the disjoint set holds for a logical cell. *)
Definition parent_of (ds : DisjointSet.t) (l r : Cell.t) : Prop :=
  exists s, DisjointSet.lookup l (DisjointSet.nodes ds) = Ok (r, s).

(** The state [initial_state] computes, written out. *)
Definition start_state (w h : Z) : state :=
  {| self := init w h;
     removable_walls :=
       filter (candidateb w h) (grid_cells (w * 2 + 1) (h * 2 + 1));
     removed_walls := [] |}.

(** ** Vocabulary of the further properties *)

(** Some cell of the 4-neighbourhood of [(x, y)] is a passage. *)
Definition passage_neighbour (m : list (list Z)) (x y : Z) : Prop :=
  cell_at m x (y - 1) = Ok CELL_PASSAGE
  \/ cell_at m x (y + 1) = Ok CELL_PASSAGE
  \/ cell_at m (x - 1) y = Ok CELL_PASSAGE
  \/ cell_at m (x + 1) y = Ok CELL_PASSAGE.

(** The wall between logical cell [(i, j)] and its right neighbour. *)
Definition wall_right (l : Cell.t) : Cell.t :=
  Cell.mk (2 * Cell.x l + 2) (2 * Cell.y l + 1).

(** The wall between logical cell [(i, j)] and the neighbour below it. *)
Definition wall_below (l : Cell.t) : Cell.t :=
  Cell.mk (2 * Cell.x l + 1) (2 * Cell.y l + 2).

(** The walls between neighbouring logical cells of a [w] by [h] maze. *)
Definition inner_walls (w h : Z) : list Cell.t :=
  map wall_right (grid_cells (w - 1) h) ++ map wall_below (grid_cells w (h - 1)).

(** Two cells that are the two sides of one wall of the list. *)
Definition joined (walls : list Cell.t) (a b : Cell.t) : Prop :=
  exists wall, In wall walls
    /\ (adjacent_cells wall = (a, b) \/ adjacent_cells wall = (b, a)).

(** Cells linked by a chain of walls of the list. *)
Inductive path (walls : list Cell.t) (a : Cell.t) : Cell.t -> Prop :=
| path_here : path walls a a
| path_more (b c : Cell.t) :
    path walls a b -> joined walls b c -> path walls a c.

(** Grid cells that share a side. *)
Definition beside (a b : Cell.t) : Prop :=
  Z.abs (Cell.x a - Cell.x b) + Z.abs (Cell.y a - Cell.y b) = 1.

(** A walk through the grid: every step goes to a passage that shares a side
    with the cell before it. *)
Inductive walk (m : list (list Z)) (a : Cell.t) : Cell.t -> Prop :=
| walk_here : walk m a a
| walk_more (b c : Cell.t) :
    walk m a b -> beside b c ->
    cell_at m (Cell.x c) (Cell.y c) = Ok CELL_PASSAGE ->
    walk m a c.

(** ** Drawing *)

(** The fill colours of the canvas items. *)
Inductive colour : Type := black | white | red | green.

(** The two strings [draw_maze] compares cell values with. *)
Inductive tag : Type := START | END.

(** [v == 'START'], [v == 'END']: the grid holds integers, and an integer
    never equals a string. *)
Definition is_tag (v : Z) (t : tag) : bool := false.

(** A canvas item: [create_rectangle(x0, y0, x1, y1, fill=...)]. *)
Module Rectangle.
Record t : Type := mk { x0 : Z; y0 : Z; x1 : Z; y1 : Z; fill : colour }.
End Rectangle.

(** The rectangle [draw_maze] creates for cell [(x, y)]. *)
Definition cell_rectangle (cell_size x y : Z) (fill : colour) : Rectangle.t :=
  Rectangle.mk (x * cell_size) (y * cell_size)
               ((x + 1) * cell_size) ((y + 1) * cell_size) fill.

(** The colour of a cell value, by the [if]/[elif] chain of [draw_maze]. *)
Definition fill_of (v : Z) : colour :=
  if v =? CELL_WALL then black
  else if is_tag v START then red
  else if is_tag v END then green
  else white.

(** The two nested loops of [draw_maze]. *)
Fixpoint draw_cells (self : KruskalMaze) (cell_size : Z) (cells : list Cell.t)
    (canvas : list Rectangle.t) : result (list Rectangle.t) :=
  match cells with
  | [] => Ok canvas
  | c :: cells' =>
      v <- cell_at (maze self) (Cell.x c) (Cell.y c) ;;
      draw_cells self cell_size cells'
        (canvas ++ [cell_rectangle cell_size (Cell.x c) (Cell.y c) (fill_of v)])
  end.

(** [KruskalMaze.draw_maze]: the items on the canvas after it was cleared
    and redrawn. *)
Definition draw_maze (self : KruskalMaze) : result (list Rectangle.t) :=
  cell_size <- floordiv WINDOW_SIZE
                 (Z.max (maze_width self) (maze_height self)) ;;
  draw_cells self cell_size
    (grid_cells (maze_width self) (maze_height self)) [].

(** The colour [draw_maze] gives a cell once the walls of [removed] are
    breached. *)
Definition expected_fill (removed : list Cell.t) (c : Cell.t) : colour :=
  if odd_odd (Cell.x c) (Cell.y c) || mem c removed then white else black.
(** * Properties *)

(** ** Cells *)

Lemma Cell_eqb_spec (a b : Cell.t) : reflect (a = b) (Cell.eqb a b).
Proof.
  destruct a as [ax ay], b as [bx by']; unfold Cell.eqb; simpl.
  destruct (Z.eqb_spec ax bx), (Z.eqb_spec ay by'); simpl; constructor;
    congruence.
Qed.

Lemma Cell_eqb_refl (a : Cell.t) : Cell.eqb a a = true.
Proof. destruct (Cell_eqb_spec a a); congruence. Qed.

Lemma Cell_eqb_neq (a b : Cell.t) : a <> b -> Cell.eqb a b = false.
Proof. destruct (Cell_eqb_spec a b); congruence. Qed.

Lemma Cell_eq_dec (a b : Cell.t) : {a = b} + {a <> b}.
Proof. destruct (Cell_eqb_spec a b); [left | right]; assumption. Qed.

Lemma mem_In (c : Cell.t) (l : list Cell.t) : mem c l = true <-> In c l.
Proof.
  unfold mem; rewrite existsb_exists; split.
  - intros (d & Hd & E); destruct (Cell_eqb_spec c d); congruence.
  - intros H; exists c; split; [assumption | apply Cell_eqb_refl].
Qed.

(** ** The result monad *)

Lemma bind_Ok_inv {A B : Type} (m : result A) (k : A -> result B) (b : B) :
  bind m k = Ok b -> exists a, m = Ok a /\ k a = Ok b.
Proof. destruct m; simpl; intros H; try discriminate; eauto. Qed.

(** ** Python lists *)

Lemma len_nonneg {A : Type} (l : list A) : 0 <= len l.
Proof. unfold len; lia. Qed.

Lemma len_app {A : Type} (l1 l2 : list A) : len (l1 ++ l2) = len l1 + len l2.
Proof. unfold len; rewrite length_app; lia. Qed.

Lemma len_map {A B : Type} (f : A -> B) (l : list A) : len (map f l) = len l.
Proof. unfold len; now rewrite length_map. Qed.

Lemma len_range (n : Z) : len (range n) = Z.max 0 n.
Proof. unfold len, range; rewrite length_map, length_seq; lia. Qed.

Lemma In_range (i n : Z) : In i (range n) <-> 0 <= i < n.
Proof.
  unfold range; rewrite in_map_iff; split.
  - intros (k & <- & Hk); apply in_seq in Hk; lia.
  - intros Hi; exists (Z.to_nat i); split; [lia | apply in_seq; lia].
Qed.

Lemma NoDup_range (n : Z) : NoDup (range n).
Proof.
  unfold range; apply Finite.Injective_map_NoDup.
  - intros a b Hab; lia.
  - apply seq_NoDup.
Qed.

Lemma nth_error_range (n i : Z) :
  0 <= i < n -> nth_error (range n) (Z.to_nat i) = Some i.
Proof.
  intros Hi; unfold range.
  rewrite nth_error_map, nth_error_seq.
  destruct (Nat.ltb_spec (Z.to_nat i) (Z.to_nat n)); [| lia].
  simpl; f_equal; lia.
Qed.


Lemma range_nonpos (n : Z) : n <= 0 -> range n = [].
Proof. intros Hn; unfold range; now replace (Z.to_nat n) with 0%nat by lia. Qed.

Lemma norm_index_in {A : Type} (l : list A) (i : Z) :
  0 <= i < len l -> norm_index l i = Ok (Z.to_nat i).
Proof.
  intros Hi; unfold norm_index.
  destruct (Z.ltb_spec i 0); [lia |].
  destruct (Z.ltb_spec i 0); [lia |].
  destruct (Z.leb_spec (len l) i); [lia | reflexivity].
Qed.

Lemma getitem_nth {A : Type} (l : list A) (i : Z) (a : A) :
  0 <= i < len l ->
  getitem l i = Ok a <-> nth_error l (Z.to_nat i) = Some a.
Proof.
  intros Hi; unfold getitem; rewrite (norm_index_in l i Hi); cbn [bind].
  destruct (nth_error l (Z.to_nat i)); split; congruence.
Qed.

Lemma getitem_total {A : Type} (l : list A) (i : Z) :
  0 <= i < len l -> exists a, getitem l i = Ok a /\ In a l.
Proof.
  intros Hi.
  destruct (nth_error l (Z.to_nat i)) as [a |] eqn:E.
  - exists a; split; [now apply getitem_nth | eapply nth_error_In; eauto].
  - apply nth_error_None in E; unfold len in Hi; lia.
Qed.

Lemma getitem_In {A : Type} (l : list A) (i : Z) (a : A) :
  getitem l i = Ok a -> In a l.
Proof.
  unfold getitem; intros H; apply bind_Ok_inv in H as (j & _ & H).
  destruct (nth_error l j) eqn:E; inversion H; subst.
  eapply nth_error_In; eauto.
Qed.

Lemma In_getitem {A : Type} (l : list A) (a : A) :
  In a l -> exists i, 0 <= i < len l /\ getitem l i = Ok a.
Proof.
  intros Ha; apply In_nth_error in Ha as (n & Hn).
  assert (n < length l)%nat by (apply nth_error_Some; congruence).
  exists (Z.of_nat n); split; [unfold len; lia |].
  apply getitem_nth; [unfold len; lia | now rewrite Nat2Z.id].
Qed.

Lemma getitem_map_range {A : Type} (f : Z -> A) (n i : Z) :
  0 <= i < n -> getitem (map f (range n)) i = Ok (f i).
Proof.
  intros Hi; apply getitem_nth.
  - rewrite len_map, len_range; lia.
  - now rewrite nth_error_map, nth_error_range.
Qed.

(** What [l[i] = v] leaves behind. *)
Lemma setitem_spec {A : Type} (l : list A) (i : Z) (v : A) :
  0 <= i < len l ->
  exists l', setitem l i v = Ok l'
    /\ len l' = len l
    /\ getitem l' i = Ok v
    /\ (forall j, 0 <= j < len l -> j <> i -> getitem l' j = getitem l j)
    /\ (forall a, In a l' -> a = v \/ In a l).
Proof.
  intros Hi; unfold setitem; rewrite (norm_index_in l i Hi); cbn [bind].
  eexists; split; [reflexivity |].
  set (n := Z.to_nat i).
  assert (Hn : (n < length l)%nat) by (unfold len in Hi; lia).
  assert (Hlen : length (firstn n l ++ v :: skipn (S n) l) = length l).
  { rewrite length_app, length_firstn; cbn [length]; rewrite length_skipn; lia. }
  assert (Hf : length (firstn n l) = n) by (rewrite length_firstn; lia).
  split; [unfold len; now rewrite Hlen |].
  split; [| split].
  - apply getitem_nth; [unfold len; rewrite Hlen; unfold len in Hi; lia |].
    fold n; rewrite nth_error_app2 by lia.
    now rewrite Hf, Nat.sub_diag.
  - intros j Hj Hne.
    unfold getitem.
    rewrite !norm_index_in by (unfold len in *; rewrite ?Hlen; lia); cbn [bind].
    replace (nth_error (firstn n l ++ v :: skipn (S n) l) (Z.to_nat j))
      with (nth_error l (Z.to_nat j)); [reflexivity |].
    destruct (Nat.ltb_spec (Z.to_nat j) n) as [Hlt | Hge].
    + rewrite nth_error_app1 by lia. now rewrite nth_error_firstn, (proj2 (Nat.ltb_lt _ _) Hlt).
    + rewrite nth_error_app2 by lia. rewrite Hf.
      assert (Hj' : (Z.to_nat j > n)%nat) by (subst n; lia).
      destruct (Z.to_nat j - n)%nat as [| k] eqn:Ek; [lia |]; cbn [nth_error].
      rewrite nth_error_skipn; f_equal; lia.
  - intros a Ha; apply in_app_or in Ha as [Ha | [Ha | Ha]].
    + right; rewrite <- (firstn_skipn n l); apply in_or_app; now left.
    + now left.
    + right; rewrite <- (firstn_skipn (S n) l); apply in_or_app; now right.
Qed.

(** What [l.pop(i)] leaves behind. *)
Lemma pop_spec {A : Type} (l : list A) (i : Z) (a : A) :
  0 <= i < len l -> getitem l i = Ok a ->
  exists l', pop l i = Ok l' /\ Permutation l (a :: l').
Proof.
  intros Hi Ha; unfold pop; rewrite (norm_index_in l i Hi); cbn [bind].
  eexists; split; [reflexivity |].
  apply getitem_nth in Ha; [| assumption].
  apply nth_error_split in Ha as (l1 & l2 & -> & Hl1).
  rewrite <- Hl1.
  rewrite firstn_app, Nat.sub_diag, firstn_all, firstn_0, app_nil_r.
  replace (S (length l1)) with (length l1 + 1)%nat by lia.
  rewrite skipn_app, skipn_all2 by lia.
  replace (length l1 + 1 - length l1)%nat with 1%nat by lia.
  change (skipn 1 (a :: l2)) with l2; rewrite app_nil_l.
  symmetry; apply Permutation_middle.
Qed.

Lemma fold_left_append_map {A B : Type} (f : A -> B) (l : list A) (acc : list B) :
  fold_left (fun r a => r ++ [f a]) l acc = acc ++ map f l.
Proof.
  revert acc; induction l as [| a l IH]; intros acc; simpl.
  - now rewrite app_nil_r.
  - now rewrite IH, <- app_assoc.
Qed.

Ltac zlia := Z.to_euclidean_division_equations; lia.

Lemma fold_left_append {A B : Type} (g : list B -> A -> list B) (f : A -> B)
    (l : list A) (acc : list B) :
  (forall r a, g r a = r ++ [f a]) ->
  fold_left g l acc = acc ++ map f l.
Proof.
  intros Hg; revert acc; induction l as [| a l IH]; intros acc; simpl.
  - now rewrite app_nil_r.
  - now rewrite IH, Hg, <- app_assoc.
Qed.

(** ** The grid *)

Lemma init_row_map (mw y : Z) :
  init_row mw y =
  map (fun x => if odd_odd x y then CELL_PASSAGE else CELL_WALL) (range mw).
Proof.
  unfold init_row.
  rewrite (fold_left_append _
             (fun x => if odd_odd x y then CELL_PASSAGE else CELL_WALL)).
  - reflexivity.
  - intros r a; unfold odd_odd; now destruct ((a mod 2 =? 1) && (y mod 2 =? 1)).
Qed.

Lemma maze_init (w h : Z) :
  maze (init w h) =
  map (fun y => map (fun x => if odd_odd x y then CELL_PASSAGE else CELL_WALL)
                    (range (w * 2 + 1)))
      (range (h * 2 + 1)).
Proof.
  unfold init; cbn [maze].
  rewrite (fold_left_append _ (init_row (w * 2 + 1))) by reflexivity.
  cbn [app]; apply map_ext; intros y; apply init_row_map.
Qed.

Lemma shaped_init (w h : Z) :
  0 <= w -> 0 <= h -> shaped (2 * w + 1) (2 * h + 1) (maze (init w h)).
Proof.
  intros Hw Hh; rewrite maze_init; split.
  - rewrite len_map, len_range; lia.
  - intros row Hrow; apply in_map_iff in Hrow as (y & <- & _).
    rewrite len_map, len_range; lia.
Qed.

Lemma cell_at_init (w h x y : Z) :
  0 <= x < 2 * w + 1 -> 0 <= y < 2 * h + 1 ->
  cell_at (maze (init w h)) x y
  = Ok (if odd_odd x y then CELL_PASSAGE else CELL_WALL).
Proof.
  intros Hx Hy; rewrite maze_init; unfold cell_at.
  rewrite getitem_map_range by lia; cbn [bind].
  now rewrite getitem_map_range by lia.
Qed.

Lemma cell_at_total (mw mh : Z) (m : list (list Z)) (x y : Z) :
  shaped mw mh m -> 0 <= x < mw -> 0 <= y < mh ->
  exists v, cell_at m x y = Ok v.
Proof.
  intros [Hlen Hrows] Hx Hy; unfold cell_at.
  destruct (getitem_total m y) as (row & -> & Hin); [lia |]; cbn [bind].
  destruct (getitem_total row x) as (v & -> & _); [rewrite (Hrows _ Hin); lia |].
  eauto.
Qed.

(** What [maze[y][x] = v] leaves behind. *)
Lemma set_cell_spec (mw mh : Z) (m : list (list Z)) (x y v : Z) :
  shaped mw mh m -> 0 <= x < mw -> 0 <= y < mh ->
  exists m', set_cell m x y v = Ok m'
    /\ shaped mw mh m'
    /\ cell_at m' x y = Ok v
    /\ (forall x' y', 0 <= x' < mw -> 0 <= y' < mh -> x' <> x \/ y' <> y ->
        cell_at m' x' y' = cell_at m x' y').
Proof.
  intros [Hlen Hrows] Hx Hy; unfold set_cell.
  destruct (getitem_total m y) as (row & Hrow & Hin); [lia |].
  rewrite Hrow; cbn [bind].
  assert (Hrl : len row = mw) by auto.
  destruct (setitem_spec row x v) as (row' & -> & Hl' & Hg' & Ho' & _); [lia |].
  cbn [bind].
  destruct (setitem_spec m y row') as (m' & -> & Hlm & Hgm & Hom & Him); [lia |].
  exists m'; split; [reflexivity |]; split; [| split].
  - split; [lia |].
    intros r Hr; destruct (Him r Hr) as [-> | Hr']; [lia | auto].
  - unfold cell_at; rewrite Hgm; cbn [bind]; exact Hg'.
  - intros x' y' Hx' Hy' Hne; unfold cell_at.
    destruct (Z.eq_dec y' y) as [-> | Hyne].
    + rewrite Hgm, Hrow; cbn [bind]. apply Ho'; lia.
    + rewrite Hom by lia; reflexivity.
Qed.

Lemma odd_odd_spec (x y : Z) :
  odd_odd x y = true <-> x mod 2 = 1 /\ y mod 2 = 1.
Proof. unfold odd_odd; rewrite andb_true_iff, !Z.eqb_eq; tauto. Qed.

Lemma odd_odd_false (x y : Z) :
  odd_odd x y = false <-> ~ (x mod 2 = 1 /\ y mod 2 = 1).
Proof. rewrite <- odd_odd_spec; destruct (odd_odd x y); split; congruence. Qed.

Lemma candidateb_spec (w h : Z) (c : Cell.t) :
  candidateb w h c = true <->
  1 <= Cell.x c <= 2 * w - 1 /\ 1 <= Cell.y c <= 2 * h - 1
  /\ (Cell.x c + Cell.y c) mod 2 = 1.
Proof.
  unfold candidateb.
  rewrite !andb_true_iff, !Z.leb_le, negb_true_iff, eqb_false_iff.
  destruct (Z.eqb_spec (Cell.x c mod 2) 1), (Z.eqb_spec (Cell.y c mod 2) 1);
    split; intros H; repeat split; try zlia; try congruence.
Qed.

Lemma In_grid_cells (mw mh : Z) (c : Cell.t) :
  In c (grid_cells mw mh) <-> 0 <= Cell.x c < mw /\ 0 <= Cell.y c < mh.
Proof.
  unfold grid_cells; rewrite in_flat_map; split.
  - intros (y & Hy & Hc); apply in_map_iff in Hc as (x & <- & Hx).
    apply In_range in Hx, Hy; simpl; lia.
  - intros [Hx Hy]; exists (Cell.y c); split; [now apply In_range |].
    apply in_map_iff; exists (Cell.x c); split; [now destruct c |].
    now apply In_range.
Qed.

Lemma NoDup_flat_map {A B : Type} (f : A -> list B) (l : list A) :
  NoDup l ->
  (forall a, In a l -> NoDup (f a)) ->
  (forall a a' b, In a l -> In a' l -> In b (f a) -> In b (f a') -> a = a') ->
  NoDup (flat_map f l).
Proof.
  induction l as [| a l IH]; intros Hnd Hf Hdisj; simpl; [constructor |].
  inversion Hnd as [| ? ? Hnotin Hnd']; subst.
  apply NoDup_app.
  - apply Hf; now left.
  - apply IH; auto.
    + intros a' Ha'; apply Hf; now right.
    + intros a1 a2 b H1 H2; apply Hdisj; now right.
  - intros b Hb Hb'; apply in_flat_map in Hb' as (a' & Ha' & Hb').
    assert (a = a') by (eapply Hdisj; eauto; [now left | now right]).
    subst; contradiction.
Qed.

Lemma NoDup_grid_cells (mw mh : Z) : NoDup (grid_cells mw mh).
Proof.
  unfold grid_cells; apply NoDup_flat_map.
  - apply NoDup_range.
  - intros y _; apply Finite.Injective_map_NoDup; [| apply NoDup_range].
    intros a b Hab; congruence.
  - intros y y' c _ _ H1 H2.
    apply in_map_iff in H1 as (? & <- & _), H2 as (? & E & _); congruence.
Qed.

(** On the fresh grid [is_wall_removable] singles out the interior cells with
    exactly one even coordinate, and never indexes outside the grid. *)
Lemma is_wall_removable_init (w h : Z) (c : Cell.t) :
  0 <= Cell.x c < w * 2 + 1 -> 0 <= Cell.y c < h * 2 + 1 ->
  is_wall_removable (init w h) c = Ok (candidateb w h c).
Proof.
  destruct c as [x y]; cbn [Cell.x Cell.y]; intros Hx Hy.
  unfold is_wall_removable; cbn [Cell.x Cell.y].
  rewrite cell_at_init by lia; cbn [bind].
  change (maze_width (init w h)) with (w * 2 + 1).
  change (maze_height (init w h)) with (h * 2 + 1).
  destruct (odd_odd x y) eqn:E0.
  - change (CELL_PASSAGE =? CELL_WALL) with false; cbn iota.
    apply odd_odd_spec in E0.
    f_equal; symmetry; apply not_true_is_false; rewrite candidateb_spec; cbn [Cell.x Cell.y].
    zlia.
  - change (CELL_WALL =? CELL_WALL) with true; cbn iota.
    apply odd_odd_false in E0.
    destruct ((x =? 0) || (x =? w * 2 + 1 - 1) || (y =? 0) || (y =? h * 2 + 1 - 1))
      eqn:Eedge.
    + f_equal; symmetry; apply not_true_is_false; rewrite candidateb_spec; cbn [Cell.x Cell.y].
      rewrite !orb_true_iff, !Z.eqb_eq in Eedge; zlia.
    + rewrite !orb_false_iff, !Z.eqb_neq in Eedge.
      rewrite !cell_at_init by lia; cbn [bind].
      destruct (odd_odd x (y - 1)) eqn:E1;
        [apply odd_odd_spec in E1 | apply odd_odd_false in E1];
      [| destruct (odd_odd x (y + 1)) eqn:E2;
         [apply odd_odd_spec in E2 | apply odd_odd_false in E2];
       [| destruct (odd_odd (x - 1) y) eqn:E3;
          [apply odd_odd_spec in E3 | apply odd_odd_false in E3];
        [| destruct (odd_odd (x + 1) y) eqn:E4;
           [apply odd_odd_spec in E4 | apply odd_odd_false in E4]]]];
      cbn [bind];
      repeat (change (CELL_PASSAGE =? CELL_PASSAGE) with true; cbn iota);
      repeat (change (CELL_WALL =? CELL_PASSAGE) with false; cbn iota;
              cbn [bind]);
      f_equal; symmetry;
      try (apply candidateb_spec; cbn [Cell.x Cell.y]; zlia);
      try (apply not_true_is_false; rewrite candidateb_spec; cbn [Cell.x Cell.y]; zlia).
Qed.

Lemma scan_walls_filter (self : KruskalMaze) (p : Cell.t -> bool)
    (cells acc : list Cell.t) :
  (forall c, In c cells -> is_wall_removable self c = Ok (p c)) ->
  scan_walls self cells acc = Ok (acc ++ filter p cells).
Proof.
  revert acc; induction cells as [| c cells IH]; intros acc Hp; simpl.
  - now rewrite app_nil_r.
  - rewrite Hp by now left. cbn [bind].
    rewrite IH by (intros; apply Hp; now right).
    destruct (p c); [now rewrite <- app_assoc | reflexivity].
Qed.

(** The candidate list is the interior walls with one even coordinate, in
    scan order; building it raises nothing, whatever the size. *)
Lemma initial_state_eq (w h : Z) :
  initial_state w h =
  Ok {| self := init w h;
        removable_walls :=
          filter (candidateb w h) (grid_cells (w * 2 + 1) (h * 2 + 1));
        removed_walls := [] |}.
Proof.
  unfold initial_state, build_removable_walls.
  change (maze_width (init w h)) with (w * 2 + 1).
  change (maze_height (init w h)) with (h * 2 + 1).
  rewrite (scan_walls_filter _ (candidateb w h)).
  - reflexivity.
  - intros c Hc; apply In_grid_cells in Hc.
    apply is_wall_removable_init; lia.
Qed.

(** ** The disjoint set *)

Lemma len_flat_map_const {A B : Type} (f : A -> list B) (l : list A) (n : Z) :
  (forall a, In a l -> len (f a) = n) -> len (flat_map f l) = n * len l.
Proof.
  induction l as [| a l IH]; intros Hf; simpl.
  - unfold len; simpl; lia.
  - rewrite len_app, IH by (intros; apply Hf; now right).
    rewrite (Hf a) by now left.
    unfold len; simpl length; lia.
Qed.

Lemma len_grid_cells (mw mh : Z) :
  0 <= mw -> 0 <= mh -> len (grid_cells mw mh) = mw * mh.
Proof.
  intros Hw Hh; unfold grid_cells.
  rewrite (len_flat_map_const _ _ mw).
  - rewrite len_range; lia.
  - intros y _; rewrite len_map, len_range; lia.
Qed.

Lemma lookup_In (c : Cell.t) (l : list (Cell.t * (Cell.t * Z))) (v : Cell.t * Z) :
  DisjointSet.lookup c l = Ok v -> In (c, v) l.
Proof.
  induction l as [| [k u] l IH]; simpl; [discriminate |].
  destruct (Cell_eqb_spec c k) as [-> | Hne].
  - intros [= ->]; now left.
  - intros H; right; auto.
Qed.

Lemma In_lookup (c : Cell.t) (l : list (Cell.t * (Cell.t * Z))) (v : Cell.t * Z) :
  NoDup (map fst l) -> In (c, v) l -> DisjointSet.lookup c l = Ok v.
Proof.
  induction l as [| [k u] l IH]; simpl; [contradiction |].
  intros Hnd [E | Hin]; inversion Hnd as [| ? ? Hnotin Hnd']; subst.
  - inversion E; subst; now rewrite Cell_eqb_refl.
  - destruct (Cell_eqb_spec c k) as [-> | Hne]; [| auto].
    exfalso; apply Hnotin; apply in_map_iff; now exists (k, v).
Qed.

Lemma lookup_total (c : Cell.t) (l : list (Cell.t * (Cell.t * Z))) :
  In c (map fst l) -> exists v, DisjointSet.lookup c l = Ok v.
Proof.
  induction l as [| [k u] l IH]; simpl; [contradiction |].
  intros [-> | Hin].
  - rewrite Cell_eqb_refl; eauto.
  - destruct (Cell.eqb c k); eauto.
Qed.

Lemma lookup_link (small big : Cell.t) (n : Z) (c : Cell.t)
    (l : list (Cell.t * (Cell.t * Z))) (p : Cell.t) (s : Z) :
  DisjointSet.lookup c l = Ok (p, s) ->
  DisjointSet.lookup c (DisjointSet.link small big n l)
  = Ok (relabel small big p, if Cell.eqb c big then n else s).
Proof.
  induction l as [| [k [q t]] l IH]; simpl; [discriminate |].
  destruct (Cell_eqb_spec c k) as [-> | Hne].
  - intros [= -> ->]; reflexivity.
  - exact IH.
Qed.

Lemma link_keys (small big : Cell.t) (n : Z) (l : list (Cell.t * (Cell.t * Z))) :
  map fst (DisjointSet.link small big n l) = map fst l.
Proof.
  unfold DisjointSet.link; rewrite map_map; apply map_ext.
  intros [k [p s]]; reflexivity.
Qed.

Lemma In_link (small big : Cell.t) (n : Z) (l : list (Cell.t * (Cell.t * Z)))
    (k p : Cell.t) (s : Z) :
  In (k, (p, s)) (DisjointSet.link small big n l) <->
  exists q t, In (k, (q, t)) l /\ p = relabel small big q
              /\ s = if Cell.eqb k big then n else t.
Proof.
  unfold DisjointSet.link; rewrite in_map_iff; split.
  - intros ([k' [q t]] & E & Hin); inversion E; subst; eauto.
  - intros (q & t & Hin & -> & ->); exists (k, (q, t)); split; auto.
Qed.

Lemma count_key (k : Cell.t) (l : list (Cell.t * (Cell.t * Z))) :
  NoDup (map fst l) -> In k (map fst l) ->
  length (filter (fun e => Cell.eqb (fst e) k) l) = 1%nat.
Proof.
  induction l as [| [k' v] l IH]; simpl; [contradiction |].
  intros Hnd Hin; inversion Hnd as [| ? ? Hnotin Hnd']; subst.
  destruct (Cell_eqb_spec k' k) as [-> | Hne]; simpl.
  - f_equal. apply length_zero_iff_nil.
    destruct (filter _ l) as [| e l'] eqn:E; [reflexivity |].
    assert (He : In e (filter (fun e => Cell.eqb (fst e) k) l))
      by (rewrite E; now left).
    apply filter_In in He as [He Hk].
    destruct (Cell_eqb_spec (fst e) k); [| discriminate].
    exfalso; apply Hnotin; apply in_map_iff; eauto.
  - destruct Hin as [E | Hin]; [congruence | auto].
Qed.

(** Linking the root [small] under the root [big] removes one root. *)
Lemma link_roots (small big : Cell.t) (n : Z) (l : list (Cell.t * (Cell.t * Z))) :
  small <> big ->
  (forall p s, In (big, (p, s)) l -> p = big) ->
  (forall p s, In (small, (p, s)) l -> p = small) ->
  (length (filter is_root (DisjointSet.link small big n l))
   + length (filter (fun e => Cell.eqb (fst e) small) l)
   = length (filter is_root l))%nat.
Proof.
  intros Hne; unfold is_root, DisjointSet.link.
  induction l as [| [k [p s]] l IH]; intros Hbig Hsmall; [reflexivity |].
  assert (IH' := IH (fun p s H => Hbig p s (or_intror H))
                    (fun p s H => Hsmall p s (or_intror H))).
  assert (Hs : k = small -> p = small)
    by (intros ->; eapply Hsmall; now left).
  assert (Hb : k = big -> p = big)
    by (intros ->; eapply Hbig; now left).
  cbn [map filter fst snd].
  destruct (Cell_eqb_spec p small);
  repeat match goal with
         | |- context [Cell.eqb ?a ?b] =>
             destruct (Cell_eqb_spec a b); cbn [length]
         end;
    try lia; exfalso; intuition congruence.
Qed.

Lemma filter_all {A : Type} (f : A -> bool) (l : list A) :
  (forall a, In a l -> f a = true) -> filter f l = l.
Proof.
  induction l as [| a l IH]; intros Hf; simpl; [reflexivity |].
  rewrite Hf by now left. f_equal; apply IH; intros; apply Hf; now right.
Qed.

Lemma In_logical_cells (w h : Z) (c : Cell.t) :
  In c (DisjointSet.logical_cells w h) <-> 0 <= Cell.x c < w /\ 0 <= Cell.y c < h.
Proof. exact (In_grid_cells w h c). Qed.

Lemma wf_nodup (w h : Z) (ds : DisjointSet.t) :
  ds_wf w h ds -> NoDup (map fst (DisjointSet.nodes ds)).
Proof. intros Hwf; rewrite (wf_keys _ _ _ Hwf); exact (NoDup_grid_cells w h). Qed.

Lemma make_wf (w h : Z) : 0 <= w -> 0 <= h -> ds_wf w h (DisjointSet.make w h).
Proof.
  intros Hw Hh; constructor; cbn [DisjointSet.make DisjointSet.width
    DisjointSet.height DisjointSet.nodes DisjointSet.set_count]; try reflexivity.
  - rewrite map_map; cbn [fst]; apply map_id.
  - intros k p s Hin; apply in_map_iff in Hin as (c & E & Hc).
    inversion E; subst; exists 1; apply in_map_iff; eauto.
  - rewrite filter_all.
    + rewrite len_map; symmetry; exact (len_grid_cells w h Hw Hh).
    + intros e He; apply in_map_iff in He as (c & <- & _).
      apply Cell_eqb_refl.
Qed.

Lemma logical_in_range (w h : Z) (ds : DisjointSet.t) (c : Cell.t) :
  DisjointSet.width ds = w -> DisjointSet.height ds = h -> in_range w h c ->
  DisjointSet.logical ds c
  = Ok (Cell.mk ((Cell.x c - 1) / 2) ((Cell.y c - 1) / 2)).
Proof.
  intros Hw Hh (Hx & Hy & Hbx & Hby); unfold DisjointSet.logical.
  rewrite Hw, Hh.
  rewrite (proj2 (Z.eqb_eq _ _) Hx), (proj2 (Z.eqb_eq _ _) Hy).
  destruct (Z.leb_spec 0 ((Cell.x c - 1) / 2)); [| zlia].
  destruct (Z.ltb_spec ((Cell.x c - 1) / 2) w); [| zlia].
  destruct (Z.leb_spec 0 ((Cell.y c - 1) / 2)); [| zlia].
  destruct (Z.ltb_spec ((Cell.y c - 1) / 2) h); [| zlia].
  reflexivity.
Qed.

Lemma logical_Ok_inv (ds : DisjointSet.t) (c l : Cell.t) :
  DisjointSet.logical ds c = Ok l ->
  in_range (DisjointSet.width ds) (DisjointSet.height ds) c
  /\ l = Cell.mk ((Cell.x c - 1) / 2) ((Cell.y c - 1) / 2).
Proof.
  unfold DisjointSet.logical.
  destruct (_ && _) eqn:E; [| discriminate].
  intros [= <-]; split; [| reflexivity].
  rewrite !andb_true_iff, !Z.eqb_eq, !Z.leb_le, !Z.ltb_lt in E.
  unfold in_range; zlia.
Qed.

Lemma find_lookup (w h : Z) (ds : DisjointSet.t) (c r : Cell.t) :
  ds_wf w h ds ->
  DisjointSet.find ds c = Ok r <->
  in_range w h c
  /\ exists s, DisjointSet.lookup (to_logical c) (DisjointSet.nodes ds) = Ok (r, s).
Proof.
  intros Hwf; unfold DisjointSet.find; split.
  - intros H; apply bind_Ok_inv in H as (l & Hl & H).
    apply logical_Ok_inv in Hl as [Hr ->].
    rewrite (wf_width _ _ _ Hwf), (wf_height _ _ _ Hwf) in Hr.
    split; [assumption |].
    apply bind_Ok_inv in H as ([r' s] & Hlk & H); inversion H; subst; eauto.
  - intros [Hr (s & Hlk)].
    rewrite (logical_in_range w h) by (auto; apply Hwf); cbn [bind].
    unfold to_logical in Hlk; rewrite Hlk; reflexivity.
Qed.

Lemma find_total (w h : Z) (ds : DisjointSet.t) (c : Cell.t) :
  ds_wf w h ds -> in_range w h c -> exists r, DisjointSet.find ds c = Ok r.
Proof.
  intros Hwf Hr.
  destruct (lookup_total (to_logical c) (DisjointSet.nodes ds)) as ([r s] & Hlk).
  - rewrite (wf_keys _ _ _ Hwf); apply In_logical_cells.
    destruct Hr as (Hx & Hy & Hbx & Hby); unfold to_logical; cbn [Cell.x Cell.y].
    zlia.
  - exists r; apply (find_lookup w h); eauto.
Qed.

Lemma find_in_range (w h : Z) (ds : DisjointSet.t) (c r : Cell.t) :
  ds_wf w h ds -> DisjointSet.find ds c = Ok r -> in_range w h c.
Proof. intros Hwf H; now apply (find_lookup w h) in H. Qed.

(** A representative is a root of the forest. *)
Lemma find_root (w h : Z) (ds : DisjointSet.t) (c r : Cell.t) :
  ds_wf w h ds -> DisjointSet.find ds c = Ok r ->
  exists s, DisjointSet.lookup r (DisjointSet.nodes ds) = Ok (r, s).
Proof.
  intros Hwf H; apply (find_lookup w h) in H as [_ (s & Hlk)]; [| assumption].
  apply lookup_In in Hlk.
  destruct (wf_flat _ _ _ Hwf _ _ _ Hlk) as (s' & Hin).
  exists s'; apply In_lookup; [eapply wf_nodup; eauto | assumption].
Qed.

(** Linking one root under another keeps the structure consistent and drops
    one component. *)
Lemma link_wf (w h : Z) (ds : DisjointSet.t) (small big : Cell.t) (ss sb n : Z) :
  ds_wf w h ds -> small <> big ->
  DisjointSet.lookup small (DisjointSet.nodes ds) = Ok (small, ss) ->
  DisjointSet.lookup big (DisjointSet.nodes ds) = Ok (big, sb) ->
  ds_wf w h
    {| DisjointSet.width := DisjointSet.width ds;
       DisjointSet.height := DisjointSet.height ds;
       DisjointSet.nodes := DisjointSet.link small big n (DisjointSet.nodes ds);
       DisjointSet.set_count := DisjointSet.set_count ds - 1 |}.
Proof.
  intros Hwf Hne Hs Hb.
  assert (Hnd := wf_nodup _ _ _ Hwf).
  constructor; cbn [DisjointSet.width DisjointSet.height DisjointSet.nodes
                    DisjointSet.set_count].
  - apply Hwf.
  - apply Hwf.
  - rewrite link_keys; apply Hwf.
  - intros k p s Hin; apply In_link in Hin as (q & t & Hin & -> & _).
    unfold relabel; destruct (Cell_eqb_spec q small) as [-> | Hq].
    + exists n; apply In_link; exists big, sb.
      split; [now apply lookup_In |].
      unfold relabel; rewrite (Cell_eqb_neq big small) by congruence.
      now rewrite Cell_eqb_refl.
    + destruct (wf_flat _ _ _ Hwf _ _ _ Hin) as (s' & Hq').
      eexists; apply In_link; exists q, s'; split; [assumption |].
      unfold relabel; rewrite (Cell_eqb_neq q small Hq); split; reflexivity.
  - rewrite (wf_count _ _ _ Hwf); unfold len.
    assert (H := link_roots small big n (DisjointSet.nodes ds) Hne).
    rewrite count_key in H.
    + rewrite <- H; [lia | |].
      * intros p s Hin; apply (In_lookup _ _ _ Hnd) in Hin; congruence.
      * intros p s Hin; apply (In_lookup _ _ _ Hnd) in Hin; congruence.
    + assumption.
    + apply lookup_In in Hs; apply in_map_iff; now exists (small, (small, ss)).
Qed.

Lemma find_link (w h : Z) (ds ds' : DisjointSet.t) (small big : Cell.t) (n : Z)
    (c r : Cell.t) :
  ds_wf w h ds -> ds_wf w h ds' ->
  DisjointSet.nodes ds' = DisjointSet.link small big n (DisjointSet.nodes ds) ->
  DisjointSet.find ds c = Ok r ->
  DisjointSet.find ds' c = Ok (relabel small big r).
Proof.
  intros Hwf Hwf' Hn H.
  apply (find_lookup w h) in H as [Hr (s & Hlk)]; [| assumption].
  apply (find_lookup w h); [assumption |]; split; [assumption |].
  rewrite Hn; erewrite lookup_link by eassumption; eauto.
Qed.

(** [union] on two cells of different components. *)
Lemma union_spec (w h : Z) (ds : DisjointSet.t) (a b ra rb : Cell.t) :
  ds_wf w h ds ->
  DisjointSet.find ds a = Ok ra -> DisjointSet.find ds b = Ok rb -> ra <> rb ->
  exists ds' small big,
    DisjointSet.union ds a b = Ok (true, ds')
    /\ ds_wf w h ds'
    /\ DisjointSet.set_count ds' = DisjointSet.set_count ds - 1
    /\ small <> big
    /\ ((small = ra /\ big = rb) \/ (small = rb /\ big = ra))
    /\ (forall c r, DisjointSet.find ds c = Ok r ->
                    DisjointSet.find ds' c = Ok (relabel small big r)).
Proof.
  intros Hwf Ha Hb Hne.
  destruct (find_root _ _ _ _ _ Hwf Ha) as (sa & Hra).
  destruct (find_root _ _ _ _ _ Hwf Hb) as (sb & Hrb).
  unfold DisjointSet.union; rewrite Ha, Hb; cbn [bind].
  rewrite (Cell_eqb_neq ra rb Hne), Hra, Hrb; cbn [bind].
  destruct (sa <? sb).
  - assert (Hwf' := link_wf w h ds ra rb sa sb (sa + sb) Hwf Hne Hra Hrb).
    eexists; exists ra, rb; split; [reflexivity |].
    split; [exact Hwf' |]; split; [reflexivity |]; split; [assumption |].
    split; [now left |].
    intros c r Hc.
    apply (find_link w h ds _ ra rb (sa + sb));
      [exact Hwf | exact Hwf' | reflexivity | exact Hc].
  - assert (Hne' : rb <> ra) by congruence.
    assert (Hwf' := link_wf w h ds rb ra sb sa (sa + sb) Hwf Hne' Hrb Hra).
    eexists; exists rb, ra; split; [reflexivity |].
    split; [exact Hwf' |]; split; [reflexivity |]; split; [assumption |].
    split; [now right |].
    intros c r Hc.
    apply (find_link w h ds _ rb ra (sa + sb));
      [exact Hwf | exact Hwf' | reflexivity | exact Hc].
Qed.

(** When every node hangs under one root there is one component. *)
Lemma single_root (w h : Z) (ds : DisjointSet.t) (r0 : Cell.t) :
  ds_wf w h ds -> 1 <= w -> 1 <= h ->
  (forall k p s, In (k, (p, s)) (DisjointSet.nodes ds) -> p = r0) ->
  DisjointSet.set_count ds = 1.
Proof.
  intros Hwf Hw Hh Hall.
  rewrite (wf_count _ _ _ Hwf); unfold len.
  rewrite (filter_ext_in is_root (fun e => Cell.eqb (fst e) r0)).
  - rewrite count_key; [reflexivity | eapply wf_nodup; eauto |].
    assert (H0 : In (Cell.mk 0 0) (map fst (DisjointSet.nodes ds))).
    { rewrite (wf_keys _ _ _ Hwf); apply In_logical_cells; simpl; lia. }
    destruct (lookup_total _ _ H0) as ([p s] & Hlk).
    apply lookup_In in Hlk.
    destruct (wf_flat _ _ _ Hwf _ _ _ Hlk) as (s' & Hin).
    rewrite (Hall _ _ _ Hlk) in Hin.
    apply in_map_iff; now exists (r0, (r0, s')).
  - intros [k [p s]] Hin; unfold is_root; cbn [fst snd].
    now rewrite (Hall _ _ _ Hin).
Qed.

(** ** The generation loop *)

Lemma adjacent_in_range (w h : Z) (c : Cell.t) :
  candidateb w h c = true ->
  in_range w h (fst (adjacent_cells c)) /\ in_range w h (snd (adjacent_cells c)).
Proof.
  intros Hc; apply candidateb_spec in Hc as (Hx & Hy & Hxy).
  unfold adjacent_cells, in_range.
  destruct (Z.eqb_spec (Cell.x c mod 2) 1); cbn [fst snd Cell.x Cell.y]; zlia.
Qed.

Lemma expected_nil (x y : Z) :
  expected [] x y = if odd_odd x y then CELL_PASSAGE else CELL_WALL.
Proof. unfold expected; cbn [mem existsb]; now rewrite orb_false_r. Qed.

Lemma mem_app (c : Cell.t) (l1 l2 : list Cell.t) :
  mem c (l1 ++ l2) = mem c l1 || mem c l2.
Proof. unfold mem; apply existsb_app. Qed.

Lemma mem_false (c : Cell.t) (l : list Cell.t) : mem c l = false <-> ~ In c l.
Proof. rewrite <- mem_In; destruct (mem c l); split; congruence. Qed.

Lemma candidate_not_odd_odd (w h : Z) (c : Cell.t) :
  candidateb w h c = true -> odd_odd (Cell.x c) (Cell.y c) = false.
Proof.
  intros Hc; apply candidateb_spec in Hc as (_ & _ & Hxy).
  apply odd_odd_false; zlia.
Qed.

Lemma candidate_in_grid (w h : Z) (c : Cell.t) :
  candidateb w h c = true ->
  0 <= Cell.x c < 2 * w + 1 /\ 0 <= Cell.y c < 2 * h + 1.
Proof. intros Hc; apply candidateb_spec in Hc; lia. Qed.

(** The loop starts in a state that satisfies the invariant. *)
Lemma Inv_init (w h : Z) (s0 : state) :
  1 <= w -> 1 <= h -> initial_state w h = Ok s0 -> Inv w h s0.
Proof.
  intros Hw Hh; rewrite initial_state_eq; intros [= <-].
  constructor; cbn [self removable_walls removed_walls].
  - change (maze_width (init w h)) with (w * 2 + 1); lia.
  - change (maze_height (init w h)) with (h * 2 + 1); lia.
  - apply shaped_init; lia.
  - intros x y Hx Hy; rewrite expected_nil; apply cell_at_init; lia.
  - apply make_wf; lia.
  - apply NoDup_filter, NoDup_grid_cells.
  - intros c Hc; now apply filter_In in Hc.
  - constructor.
  - intros c [].
  - intros c Hc; left; apply filter_In; split; [| assumption].
    apply In_grid_cells; apply candidate_in_grid in Hc; lia.
  - change (w * h + 0 = w * h); lia.
Qed.

Lemma Cell_eta (c : Cell.t) : Cell.mk (Cell.x c) (Cell.y c) = c.
Proof. now destruct c. Qed.

Lemma expected_snoc_same (removed : list Cell.t) (wall : Cell.t) :
  expected (removed ++ [wall]) (Cell.x wall) (Cell.y wall) = CELL_PASSAGE.
Proof.
  unfold expected; rewrite Cell_eta, mem_app.
  replace (mem wall [wall]) with true
    by (symmetry; apply mem_In; now left).
  now rewrite !orb_true_r.
Qed.

Lemma expected_snoc_other (removed : list Cell.t) (wall : Cell.t) (x y : Z) :
  x <> Cell.x wall \/ y <> Cell.y wall ->
  expected (removed ++ [wall]) x y = expected removed x y.
Proof.
  intros Hne; unfold expected; rewrite mem_app.
  replace (mem (Cell.mk x y) [wall]) with false; [now rewrite orb_false_r |].
  symmetry; apply mem_false; intros [E | []]; subst wall;
    cbn [Cell.x Cell.y] in Hne; lia.
Qed.

(** One iteration from a state that satisfies the invariant: the sampled
    wall's two sides are tracked by the disjoint set; when they are connected
    nothing changes, otherwise the wall is breached and the invariant holds
    again. *)
Lemma loop_body_spec (w h : Z) (s : state) (i : Z) :
  Inv w h s -> 0 <= i < len (removable_walls s) ->
  exists wall r1 r2,
    getitem (removable_walls s) i = Ok wall
    /\ DisjointSet.find (disjoint_set (self s)) (fst (adjacent_cells wall)) = Ok r1
    /\ DisjointSet.find (disjoint_set (self s)) (snd (adjacent_cells wall)) = Ok r2
    /\ ((r1 = r2 /\ loop_body i s = Ok s)
        \/ (r1 <> r2
            /\ exists s', loop_body i s = Ok s' /\ Inv w h s' /\ breached s wall s')).
Proof.
  intros HI Hi.
  destruct (getitem_total (removable_walls s) i Hi) as (wall & Hg & Hin).
  assert (Hc : candidateb w h wall = true) by (eapply inv_walls; eauto).
  destruct (adjacent_in_range w h wall Hc) as [H1 H2].
  destruct (find_total w h _ _ (inv_ds _ _ _ HI) H1) as (r1 & Hf1).
  destruct (find_total w h _ _ (inv_ds _ _ _ HI) H2) as (r2 & Hf2).
  exists wall, r1, r2; do 3 (split; [assumption |]).
  unfold loop_body; rewrite Hg; cbn [bind].
  destruct (adjacent_cells wall) as [c1 c2] eqn:Eadj; cbn [fst snd] in *.
  rewrite Hf1, Hf2; cbn [bind].
  destruct (Cell_eqb_spec r1 r2) as [E | Hne]; cbn [negb];
    [left; split; [assumption | reflexivity] | right; split; [assumption |]].
  destruct (candidate_in_grid w h wall Hc) as [Hwx Hwy].
  assert (Hnotrem : ~ In wall (removed_walls s)).
  { intros Hr; apply (inv_removed _ _ _ HI) in Hr as [_ Hr]; contradiction. }
  assert (Hwas : cell_at (maze (self s)) (Cell.x wall) (Cell.y wall) = Ok CELL_WALL).
  { rewrite (inv_cells _ _ _ HI) by assumption; unfold expected.
    rewrite (candidate_not_odd_odd w h wall Hc), Cell_eta.
    now rewrite (proj2 (mem_false _ _) Hnotrem). }
  destruct (set_cell_spec _ _ _ (Cell.x wall) (Cell.y wall) CELL_PASSAGE
              (inv_shape _ _ _ HI) Hwx Hwy)
    as (m' & -> & Hsh' & Hcell & Hoth); cbn [bind].
  destruct (union_spec w h _ c1 c2 r1 r2 (inv_ds _ _ _ HI) Hf1 Hf2 Hne)
    as (ds' & small & big & -> & Hwf' & Hcnt & Hsb & Hor & Hfind); cbn [bind].
  destruct (pop_spec _ i wall Hi Hg) as (walls' & -> & Hperm); cbn [bind].
  assert (Hnd' : NoDup (wall :: walls'))
    by (eapply Permutation_NoDup; [exact Hperm | eapply inv_walls_nodup; eauto]).
  assert (Hsub : forall c, In c walls' -> In c (removable_walls s)).
  { intros c Hc'; eapply Permutation_in; [symmetry; exact Hperm | now right]. }
  assert (Hmono : forall a b, connected (disjoint_set (self s)) a b ->
                              connected ds' a b).
  { intros a b (r & Ha & Hb); exists (relabel small big r); split; auto. }
  assert (Hconn : connected ds' c1 c2).
  { exists big; split.
    - rewrite (Hfind _ _ Hf1); f_equal; unfold relabel.
      destruct Hor as [[-> ->] | [-> ->]];
        [now rewrite Cell_eqb_refl | now rewrite (Cell_eqb_neq r1 r2 Hne)].
    - rewrite (Hfind _ _ Hf2); f_equal; unfold relabel.
      destruct Hor as [[-> ->] | [-> ->]];
        [rewrite (Cell_eqb_neq r2 r1); congruence | now rewrite Cell_eqb_refl]. }
  eexists; split; [reflexivity |]; split.
  - constructor; cbn [self removable_walls removed_walls maze_width maze_height
                      maze disjoint_set].
    + eapply inv_width; eauto.
    + eapply inv_height; eauto.
    + assumption.
    + intros x y Hx Hy.
      destruct (Z.eq_dec x (Cell.x wall)) as [-> | Hxne];
        [destruct (Z.eq_dec y (Cell.y wall)) as [-> | Hyne] |].
      * now rewrite Hcell, expected_snoc_same.
      * rewrite Hoth, expected_snoc_other by auto.
        apply (inv_cells _ _ _ HI); assumption.
      * rewrite Hoth, expected_snoc_other by auto.
        apply (inv_cells _ _ _ HI); assumption.
    + assumption.
    + now inversion Hnd'.
    + intros c Hc'; eapply inv_walls; eauto.
    + apply NoDup_app.
      * eapply inv_removed_nodup; eauto.
      * repeat constructor; intros [].
      * intros c Hc1 [<- | []]; contradiction.
    + intros c Hc'; apply in_app_or in Hc' as [Hc' | [<- | []]].
      * destruct (inv_removed _ _ _ HI c Hc') as [Hcc Hcn]; split; auto.
      * split; [assumption | now inversion Hnd'].
    + intros c Hcc; destruct (inv_edges _ _ _ HI c Hcc) as [Hcin | Hcon].
      * eapply Permutation_in in Hcin; [| exact Hperm].
        destruct Hcin as [<- | Hcin]; [right | now left].
        now rewrite Eadj.
      * right; auto.
    + rewrite Hcnt, len_app. unfold len at 2; cbn [length].
      assert (Hk := inv_count _ _ _ HI); lia.
  - constructor; cbn [self removable_walls removed_walls maze_width maze_height
                      maze disjoint_set]; auto.
    intros x y Hx Hy Hxy; apply Hoth; auto.
    + rewrite (inv_width _ _ _ HI) in Hx; assumption.
    + rewrite (inv_height _ _ _ HI) in Hy; assumption.
Qed.

Lemma Inv_step (w h : Z) (s s' : state) (i : Z) :
  Inv w h s -> 0 <= i <= len (removable_walls s) - 1 ->
  loop_body i s = Ok s' -> Inv w h s'.
Proof.
  intros HI Hi Hb.
  destruct (loop_body_spec w h s i HI) as (wall & r1 & r2 & _ & _ & _ & Hcase);
    [lia |].
  destruct Hcase as [[_ E] | [_ (s'' & E & HI' & _)]]; congruence.
Qed.

Lemma reachable_Inv (w h : Z) (s : state) :
  1 <= w -> 1 <= h -> reachable w h s -> Inv w h s.
Proof.
  intros Hw Hh Hr; induction Hr as [s0 H0 | s s' i _ IH _ Hi Hb].
  - now apply Inv_init.
  - eapply Inv_step; eauto.
Qed.

Lemma loop_body_no_raise (w h : Z) (s : state) (i : Z) :
  Inv w h s -> 0 <= i <= len (removable_walls s) - 1 ->
  exists s', loop_body i s = Ok s'.
Proof.
  intros HI Hi.
  destruct (loop_body_spec w h s i HI) as (wall & r1 & r2 & _ & _ & _ & Hcase);
    [lia |].
  destruct Hcase as [[_ E] | [_ (s'' & E & _)]]; eauto.
Qed.

(** Unfolding of one turn of the [while] loop. *)
Lemma generation_loop_guard_false (draws : list Z) (s : state) :
  loop_guard s = false -> generation_loop draws s = Ok (s, draws).
Proof. intros Hg; destruct draws; simpl; now rewrite Hg. Qed.

Lemma generation_loop_step (r : Z) (rest : list Z) (s s' : state) :
  loop_guard s = true -> 0 <= r <= len (removable_walls s) - 1 ->
  loop_body r s = Ok s' ->
  generation_loop (r :: rest) s = generation_loop rest s'.
Proof.
  intros Hg Hr Hb; cbn [generation_loop]; rewrite Hg; unfold randint.
  destruct (Z.ltb_spec (len (removable_walls s) - 1) 0); [lia |].
  destruct (Z.leb_spec 0 r); [| lia].
  destruct (Z.leb_spec r (len (removable_walls s) - 1)); [| lia].
  cbn [andb]; rewrite Hb; reflexivity.
Qed.

Lemma loop_guard_true (s : state) :
  loop_guard s = true ->
  1 < DisjointSet.set_count (disjoint_set (self s))
  /\ 1 <= len (removable_walls s).
Proof.
  unfold loop_guard; rewrite andb_true_iff, negb_true_iff, Z.ltb_lt, Z.eqb_neq.
  assert (H := len_nonneg (removable_walls s)); lia.
Qed.

(** A run that ends normally ends in a reachable state whose guard fails;
    a run never raises. *)
Lemma generation_loop_reachable (w h : Z) (draws : list Z) (s : state) :
  1 <= w -> 1 <= h -> reachable w h s ->
  match generation_loop draws s with
  | Ok (s', _) => reachable w h s' /\ loop_guard s' = false
  | Raise _ => False
  | _ => True
  end.
Proof.
  intros Hw Hh; revert s; induction draws as [| r rest IH]; intros s Hr.
  - cbn [generation_loop]; destruct (loop_guard s) eqn:Hg; [| auto].
    apply loop_guard_true in Hg as [_ Hl]; unfold randint.
    destruct (Z.ltb_spec (len (removable_walls s) - 1) 0); [lia | exact I].
  - destruct (loop_guard s) eqn:Hg.
    + destruct ((0 <=? r) && (r <=? len (removable_walls s) - 1)) eqn:Hv.
      * rewrite andb_true_iff, !Z.leb_le in Hv.
        destruct (loop_body_no_raise w h s r (reachable_Inv _ _ _ Hw Hh Hr))
          as (s' & Hb); [lia |].
        rewrite (generation_loop_step r rest s s' Hg) by (auto; lia).
        apply IH; eapply reach_step; eauto; lia.
      * cbn [generation_loop]; rewrite Hg; unfold randint.
        apply loop_guard_true in Hg as [_ Hl].
        destruct (Z.ltb_spec (len (removable_walls s) - 1) 0); [lia |].
        now rewrite Hv.
    + rewrite generation_loop_guard_false by assumption; auto.
Qed.

(** ** The grid graph is connected *)

Lemma to_logical_odd (i j : Z) :
  to_logical (Cell.mk (2 * i + 1) (2 * j + 1)) = Cell.mk i j.
Proof. unfold to_logical; cbn [Cell.x Cell.y]; f_equal; zlia. Qed.

Lemma count_pos (w h : Z) (ds : DisjointSet.t) :
  ds_wf w h ds -> 1 <= w -> 1 <= h -> 1 <= DisjointSet.set_count ds.
Proof.
  intros Hwf Hw Hh.
  assert (H0 : In (Cell.mk 0 0) (map fst (DisjointSet.nodes ds))).
  { rewrite (wf_keys _ _ _ Hwf); apply In_logical_cells; simpl; lia. }
  destruct (lookup_total _ _ H0) as ([p s] & Hlk).
  apply lookup_In in Hlk.
  destruct (wf_flat _ _ _ Hwf _ _ _ Hlk) as (s' & Hin).
  assert (Hf : In (p, (p, s')) (filter is_root (DisjointSet.nodes ds))).
  { apply filter_In; split; [assumption | apply Cell_eqb_refl]. }
  rewrite (wf_count _ _ _ Hwf); unfold len.
  destruct (filter is_root (DisjointSet.nodes ds)); [contradiction |].
  cbn [length]; lia.
Qed.

Section Spanning.

Variables (w h : Z) (ds : DisjointSet.t).
Hypothesis Hwf : ds_wf w h ds.
Hypothesis Hall : forall c, candidateb w h c = true ->
  connected ds (fst (adjacent_cells c)) (snd (adjacent_cells c)).

Lemma connected_parent (i j i' j' : Z) (r : Cell.t) :
  connected ds (Cell.mk (2 * i + 1) (2 * j + 1))
               (Cell.mk (2 * i' + 1) (2 * j' + 1)) ->
  parent_of ds (Cell.mk i j) r -> parent_of ds (Cell.mk i' j') r.
Proof.
  intros (r' & Ha & Hb) (s & Hs).
  apply (find_lookup w h _ _ _ Hwf) in Ha as [_ (sa & Ha)].
  apply (find_lookup w h _ _ _ Hwf) in Hb as [_ (sb & Hb)].
  rewrite to_logical_odd in Ha, Hb.
  assert (r' = r) by congruence; subst r'.
  now exists sb.
Qed.

Lemma step_right (i j : Z) (r : Cell.t) :
  0 <= i -> i + 1 < w -> 0 <= j < h ->
  parent_of ds (Cell.mk i j) r -> parent_of ds (Cell.mk (i + 1) j) r.
Proof.
  intros Hi Hi' Hj.
  assert (Hc : candidateb w h (Cell.mk (2 * i + 2) (2 * j + 1)) = true)
    by (apply candidateb_spec; cbn [Cell.x Cell.y]; zlia).
  specialize (Hall _ Hc); unfold adjacent_cells in Hall.
  cbn [Cell.x Cell.y] in Hall.
  destruct (Z.eqb_spec ((2 * i + 2) mod 2) 1); [zlia |].
  cbn [fst snd] in Hall.
  replace (2 * i + 2 - 1) with (2 * i + 1) in Hall by lia.
  replace (2 * i + 2 + 1) with (2 * (i + 1) + 1) in Hall by lia.
  now apply connected_parent.
Qed.

Lemma step_down (i j : Z) (r : Cell.t) :
  0 <= i < w -> 0 <= j -> j + 1 < h ->
  parent_of ds (Cell.mk i j) r -> parent_of ds (Cell.mk i (j + 1)) r.
Proof.
  intros Hi Hj Hj'.
  assert (Hc : candidateb w h (Cell.mk (2 * i + 1) (2 * j + 2)) = true)
    by (apply candidateb_spec; cbn [Cell.x Cell.y]; zlia).
  specialize (Hall _ Hc); unfold adjacent_cells in Hall.
  cbn [Cell.x Cell.y] in Hall.
  destruct (Z.eqb_spec ((2 * i + 1) mod 2) 1); [| zlia].
  cbn [fst snd] in Hall.
  replace (2 * j + 2 - 1) with (2 * j + 1) in Hall by lia.
  replace (2 * j + 2 + 1) with (2 * (j + 1) + 1) in Hall by lia.
  now apply connected_parent.
Qed.

Lemma first_row (r : Cell.t) :
  parent_of ds (Cell.mk 0 0) r ->
  forall i, 0 <= i -> i < w -> parent_of ds (Cell.mk i 0) r.
Proof.
  intros H0 i Hi; pattern i; apply natlike_ind; [auto | | assumption].
  intros k Hk IH Hlt; unfold Z.succ.
  apply step_right; [lia | lia | | apply IH; lia].
  destruct H0 as (s & H0); apply lookup_In in H0.
  assert (Hin : In (Cell.mk 0 0) (map fst (DisjointSet.nodes ds)))
    by (apply in_map_iff; now exists (Cell.mk 0 0, (r, s))).
  rewrite (wf_keys _ _ _ Hwf) in Hin; apply In_logical_cells in Hin.
  cbn [Cell.x Cell.y] in Hin; lia.
Qed.

Lemma every_cell (r : Cell.t) :
  parent_of ds (Cell.mk 0 0) r ->
  forall i j, 0 <= i < w -> 0 <= j -> j < h -> parent_of ds (Cell.mk i j) r.
Proof.
  intros H0 i j Hi Hj; pattern j; apply natlike_ind; [| | assumption].
  - intros _; apply first_row; auto; lia.
  - intros k Hk IH Hlt; unfold Z.succ.
    apply step_down; [lia | lia | lia | apply IH; lia].
Qed.

(** When the two sides of every interior wall are connected, the logical
    cells form one component. *)
Lemma spanning_count : 1 <= w -> 1 <= h -> DisjointSet.set_count ds = 1.
Proof.
  intros Hw Hh.
  assert (H0 : In (Cell.mk 0 0) (map fst (DisjointSet.nodes ds))).
  { rewrite (wf_keys _ _ _ Hwf); apply In_logical_cells; simpl; lia. }
  destruct (lookup_total _ _ H0) as ([r0 s0] & Hlk).
  apply (single_root w h ds r0); auto.
  intros k p s Hin.
  assert (Hk : In k (map fst (DisjointSet.nodes ds)))
    by (apply in_map_iff; now exists (k, (p, s))).
  rewrite (wf_keys _ _ _ Hwf) in Hk; apply In_logical_cells in Hk.
  destruct (every_cell r0 (ex_intro _ s0 Hlk) (Cell.x k) (Cell.y k))
    as (s' & Hs'); try lia.
  rewrite Cell_eta in Hs'.
  apply (In_lookup _ _ _ (wf_nodup _ _ _ Hwf)) in Hin; congruence.
Qed.

End Spanning.

(** ** Termination of the loop *)

Lemma separates_false (w h : Z) (ds : DisjointSet.t) (c : Cell.t) :
  ds_wf w h ds -> candidateb w h c = true -> separates ds c = false ->
  connected ds (fst (adjacent_cells c)) (snd (adjacent_cells c)).
Proof.
  intros Hwf Hc Hs.
  destruct (adjacent_in_range w h c Hc) as [H1 H2].
  destruct (find_total w h ds _ Hwf H1) as (r1 & Hf1).
  destruct (find_total w h ds _ Hwf H2) as (r2 & Hf2).
  unfold separates in Hs; rewrite Hf1, Hf2 in Hs.
  apply negb_false_iff in Hs.
  destruct (Cell_eqb_spec r1 r2); [subst | discriminate].
  now exists r2.
Qed.

(** When the guard fails a single component is left. *)
Lemma exit_count (w h : Z) (s : state) :
  1 <= w -> 1 <= h -> Inv w h s -> loop_guard s = false ->
  DisjointSet.set_count (disjoint_set (self s)) = 1.
Proof.
  intros Hw Hh HI Hg.
  assert (Hpos := count_pos w h _ (inv_ds _ _ _ HI) Hw Hh).
  unfold loop_guard in Hg; apply andb_false_iff in Hg as [Hg | Hg].
  - apply Z.ltb_ge in Hg; lia.
  - apply negb_false_iff, Z.eqb_eq in Hg.
    apply (spanning_count w h _ (inv_ds _ _ _ HI)); auto.
    intros c Hc; destruct (inv_edges _ _ _ HI c Hc) as [Hin | Hcon]; [| assumption].
    destruct (removable_walls s); [contradiction | discriminate].
Qed.

(** While the guard holds some candidate still separates two components, and
    sampling it breaches a wall. *)
Lemma progress (w h : Z) (s : state) :
  1 <= w -> 1 <= h -> Inv w h s -> loop_guard s = true ->
  exists i s', 0 <= i <= len (removable_walls s) - 1
    /\ loop_body i s = Ok s'
    /\ DisjointSet.set_count (disjoint_set (self s'))
       = DisjointSet.set_count (disjoint_set (self s)) - 1.
Proof.
  intros Hw Hh HI Hg.
  destruct (existsb (separates (disjoint_set (self s))) (removable_walls s))
    eqn:E.
  - apply existsb_exists in E as (wall & Hin & Hsep).
    destruct (In_getitem _ _ Hin) as (i & Hi & Hget).
    destruct (loop_body_spec w h s i HI Hi)
      as (wall' & r1 & r2 & Hget' & Hf1 & Hf2 & Hcase).
    assert (wall' = wall) by congruence; subst wall'.
    unfold separates in Hsep; rewrite Hf1, Hf2 in Hsep.
    destruct Hcase as [[-> _] | [_ (s' & Hb & _ & Hbr)]].
    + now rewrite Cell_eqb_refl in Hsep.
    + exists i, s'; split; [lia |]; split; [assumption | apply Hbr].
  - exfalso.
    apply loop_guard_true in Hg as [Hg _].
    enough (DisjointSet.set_count (disjoint_set (self s)) = 1) by lia.
    apply (spanning_count w h _ (inv_ds _ _ _ HI)); auto.
    intros c Hc; destruct (inv_edges _ _ _ HI c Hc) as [Hin | Hcon]; [| assumption].
    apply (separates_false w h); auto; [apply HI |].
    destruct (separates (disjoint_set (self s)) c) eqn:Hs; [| reflexivity].
    assert (existsb (separates (disjoint_set (self s))) (removable_walls s) = true)
      by (apply existsb_exists; eauto).
    congruence.
Qed.

(** From every state of the invariant some sequence of draws ends the loop. *)
Lemma finishing_draws (w h : Z) :
  1 <= w -> 1 <= h ->
  forall (n : nat) (s : state),
    Inv w h s ->
    (Z.to_nat (DisjointSet.set_count (disjoint_set (self s))) <= n)%nat ->
    exists draws s', generation_loop draws s = Ok (s', []).
Proof.
  intros Hw Hh; induction n as [| n IH]; intros s HI Hn;
    destruct (loop_guard s) eqn:Hg;
    try (exists [], s; now apply generation_loop_guard_false).
  - apply loop_guard_true in Hg; lia.
  - destruct (progress w h s Hw Hh HI Hg) as (i & s1 & Hi & Hb & Hcnt).
    destruct (IH s1) as (draws & s' & Hrun).
    + eapply Inv_step; eauto.
    + apply loop_guard_true in Hg; lia.
    + exists (i :: draws), s'.
      now rewrite (generation_loop_step i draws s s1 Hg Hi Hb).
Qed.

(** ** Counting passages *)

Lemma filter_none {A : Type} (f : A -> bool) (l : list A) :
  (forall a, In a l -> f a = false) -> filter f l = [].
Proof.
  induction l as [| a l IH]; intros Hf; simpl; [reflexivity |].
  rewrite Hf by now left. apply IH; intros; apply Hf; now right.
Qed.











(** ** The claims *)

(** With one component left, all odd/odd cells are connected. *)
Lemma count_one_connected (w h : Z) (ds : DisjointSet.t) (a b : Cell.t) :
  ds_wf w h ds -> DisjointSet.set_count ds = 1 ->
  in_range w h a -> in_range w h b -> connected ds a b.
Proof.
  intros Hwf Hone Ha Hb.
  destruct (find_total w h ds a Hwf Ha) as (ra & Hfa).
  destruct (find_total w h ds b Hwf Hb) as (rb & Hfb).
  destruct (find_root w h ds a ra Hwf Hfa) as (sa & Hla).
  destruct (find_root w h ds b rb Hwf Hfb) as (sb & Hlb).
  apply lookup_In in Hla, Hlb.
  assert (Hia : In (ra, (ra, sa)) (filter is_root (DisjointSet.nodes ds)))
    by (apply filter_In; split; [assumption | apply Cell_eqb_refl]).
  assert (Hib : In (rb, (rb, sb)) (filter is_root (DisjointSet.nodes ds)))
    by (apply filter_In; split; [assumption | apply Cell_eqb_refl]).
  rewrite (wf_count _ _ _ Hwf) in Hone; unfold len in Hone.
  destruct (filter is_root (DisjointSet.nodes ds)) as [| e [| e' l]];
    cbn [length] in Hone; try lia.
  destruct Hia as [Ea | []], Hib as [Eb | []].
  exists ra; split; [assumption |]; congruence.
Qed.


(** C1: for every width >= 1 and height >= 1 the candidate scan completes,
    and whenever the generation loop terminates the disjoint set's
    [set_count] is 1 and all width*height logical cells have one and the same
    representative, so that they form a single component.  The loop raises no
    exception on any sequence of draws, and some sequence of draws does make
    it terminate. *)
Theorem C1_single_component (w h : Z) :
  1 <= w -> 1 <= h ->
  exists s0,
    initial_state w h = Ok s0
    /\ (forall draws s rest,
          generation_loop draws s0 = Ok (s, rest) ->
          DisjointSet.set_count (disjoint_set (self s)) = 1
          /\ exists r, forall i j, 0 <= i < w -> 0 <= j < h ->
               DisjointSet.find (disjoint_set (self s))
                 (Cell.mk (2 * i + 1) (2 * j + 1)) = Ok r)
    /\ (forall draws e, generation_loop draws s0 <> Raise e)
    /\ (exists draws s, generation_loop draws s0 = Ok (s, [])).
Proof.
  intros Hw Hh; eexists; split; [apply initial_state_eq |].
  set (s0 := {| self := init w h |}).
  assert (Hr : reachable w h s0) by (apply reach_init, initial_state_eq).
  split; [| split].
  - intros draws s rest Hrun.
    assert (H := generation_loop_reachable w h draws s0 Hw Hh Hr).
    rewrite Hrun in H; destruct H as [Hr' Hg].
    assert (HI := reachable_Inv w h s Hw Hh Hr').
    assert (Hwf := inv_ds _ _ _ HI).
    assert (Hone := exit_count w h s Hw Hh HI Hg).
    split; [exact Hone |].
    assert (H11 : in_range w h (Cell.mk 1 1))
      by (unfold in_range; cbn [Cell.x Cell.y]; zlia).
    destruct (find_total w h _ _ Hwf H11) as (r & Hfr).
    exists r; intros i j Hi Hj.
    assert (Hc : in_range w h (Cell.mk (2 * i + 1) (2 * j + 1)))
      by (unfold in_range; cbn [Cell.x Cell.y]; zlia).
    destruct (count_one_connected w h _ _ _ Hwf Hone H11 Hc) as (r' & Ha & Hb).
    congruence.
  - intros draws e Hrun.
    assert (H := generation_loop_reachable w h draws s0 Hw Hh Hr).
    now rewrite Hrun in H.
  - eapply (finishing_draws w h Hw Hh); [| reflexivity].
    now apply reachable_Inv.
Qed.

Lemma C1_single_component_witness :
  exists s0,
    initial_state 2 2 = Ok s0
    /\ (forall draws s rest,
          generation_loop draws s0 = Ok (s, rest) ->
          DisjointSet.set_count (disjoint_set (self s)) = 1
          /\ exists r, forall i j, 0 <= i < 2 -> 0 <= j < 2 ->
               DisjointSet.find (disjoint_set (self s))
                 (Cell.mk (2 * i + 1) (2 * j + 1)) = Ok r)
    /\ (forall draws e, generation_loop draws s0 <> Raise e)
    /\ (exists draws s, generation_loop draws s0 = Ok (s, [])).
Proof. apply (C1_single_component 2 2); lia. Defined.




(** C4: for every width >= 1 and height >= 1 the constructor builds a grid
    of 2*height+1 rows of 2*width+1 cells in which cell (x, y) is a passage
    if and only if x and y are both odd, and a wall otherwise. *)
Theorem C4_initial_grid (w h : Z) :
  1 <= w -> 1 <= h ->
  maze_width (init w h) = 2 * w + 1
  /\ maze_height (init w h) = 2 * h + 1
  /\ shaped (2 * w + 1) (2 * h + 1) (maze (init w h))
  /\ forall x y, 0 <= x < 2 * w + 1 -> 0 <= y < 2 * h + 1 ->
       (cell_at (maze (init w h)) x y = Ok CELL_PASSAGE
        <-> x mod 2 = 1 /\ y mod 2 = 1)
       /\ (cell_at (maze (init w h)) x y = Ok CELL_WALL
           <-> ~ (x mod 2 = 1 /\ y mod 2 = 1)).
Proof.
  intros Hw Hh.
  split; [change (maze_width (init w h)) with (w * 2 + 1); lia |].
  split; [change (maze_height (init w h)) with (h * 2 + 1); lia |].
  split; [apply shaped_init; lia |].
  intros x y Hx Hy; rewrite cell_at_init by lia.
  rewrite <- odd_odd_spec.
  destruct (odd_odd x y); unfold CELL_PASSAGE, CELL_WALL;
    repeat split; intros; congruence.
Qed.

Lemma C4_initial_grid_witness :
  maze_width (init 2 1) = 2 * 2 + 1
  /\ maze_height (init 2 1) = 2 * 1 + 1
  /\ shaped (2 * 2 + 1) (2 * 1 + 1) (maze (init 2 1))
  /\ forall x y, 0 <= x < 2 * 2 + 1 -> 0 <= y < 2 * 1 + 1 ->
       (cell_at (maze (init 2 1)) x y = Ok CELL_PASSAGE
        <-> x mod 2 = 1 /\ y mod 2 = 1)
       /\ (cell_at (maze (init 2 1)) x y = Ok CELL_WALL
           <-> ~ (x mod 2 = 1 /\ y mod 2 = 1)).
Proof. apply (C4_initial_grid 2 1); lia. Defined.

Lemma reachable_start (w h : Z) : reachable w h (start_state w h).
Proof. apply reach_init, initial_state_eq. Qed.

Lemma union_total (w h : Z) (ds : DisjointSet.t) (a b ra rb : Cell.t) :
  ds_wf w h ds ->
  DisjointSet.find ds a = Ok ra -> DisjointSet.find ds b = Ok rb ->
  exists merged ds', DisjointSet.union ds a b = Ok (merged, ds').
Proof.
  intros Hwf Ha Hb; destruct (Cell_eq_dec ra rb) as [-> | Hne].
  - exists false, ds; unfold DisjointSet.union; rewrite Ha, Hb; cbn [bind].
    now rewrite Cell_eqb_refl.
  - destruct (union_spec w h ds a b ra rb Hwf Ha Hb Hne) as (ds' & _ & _ & H & _).
    now exists true, ds'.
Qed.

(** C6: for every width >= 1 and height >= 1, in every iteration of the
    generation loop the two cells handed to [find] and [union] have odd
    coordinates with 1 <= x <= 2*width - 1 and 1 <= y <= 2*height - 1; the
    disjoint set answers both queries and the iteration raises nothing. *)
Theorem C6_queries_in_range (w h : Z) (s : state) (wall_index : Z) :
  1 <= w -> 1 <= h ->
  reachable w h s ->
  loop_guard s = true ->
  0 <= wall_index <= len (removable_walls s) - 1 ->
  exists wall,
    getitem (removable_walls s) wall_index = Ok wall
    /\ in_range w h (fst (adjacent_cells wall))
    /\ in_range w h (snd (adjacent_cells wall))
    /\ (exists r1 r2,
          DisjointSet.find (disjoint_set (self s)) (fst (adjacent_cells wall))
          = Ok r1
          /\ DisjointSet.find (disjoint_set (self s)) (snd (adjacent_cells wall))
             = Ok r2)
    /\ (exists merged ds',
          DisjointSet.union (disjoint_set (self s))
            (fst (adjacent_cells wall)) (snd (adjacent_cells wall))
          = Ok (merged, ds'))
    /\ exists s', loop_body wall_index s = Ok s'.
Proof.
  intros Hw Hh Hr _ Hi.
  assert (HI := reachable_Inv w h s Hw Hh Hr).
  destruct (loop_body_spec w h s wall_index HI)
    as (wall & r1 & r2 & Hget & Hf1 & Hf2 & Hcase); [lia |].
  exists wall; split; [assumption |].
  assert (Hc : candidateb w h wall = true)
    by (eapply inv_walls; eauto; eapply getitem_In; eauto).
  destruct (adjacent_in_range w h wall Hc) as [H1 H2].
  do 2 (split; [assumption |]).
  split; [now exists r1, r2 |].
  split; [eapply union_total; eauto; apply HI |].
  destruct Hcase as [[_ E] | [_ (s' & E & _)]]; eauto.
Qed.

Lemma C6_queries_in_range_witness :
  exists wall,
    getitem (removable_walls (start_state 2 2)) 0 = Ok wall
    /\ in_range 2 2 (fst (adjacent_cells wall))
    /\ in_range 2 2 (snd (adjacent_cells wall))
    /\ (exists r1 r2,
          DisjointSet.find (disjoint_set (self (start_state 2 2)))
            (fst (adjacent_cells wall)) = Ok r1
          /\ DisjointSet.find (disjoint_set (self (start_state 2 2)))
               (snd (adjacent_cells wall)) = Ok r2)
    /\ (exists merged ds',
          DisjointSet.union (disjoint_set (self (start_state 2 2)))
            (fst (adjacent_cells wall)) (snd (adjacent_cells wall))
          = Ok (merged, ds'))
    /\ exists s', loop_body 0 (start_state 2 2) = Ok s'.
Proof.
  apply (C6_queries_in_range 2 2 (start_state 2 2) 0);
    [lia | lia | apply reach_init; reflexivity | reflexivity |].
  change (0 <= 0 <= 4 - 1); lia.
Defined.

(** C9: in every iteration of the generation loop a passage cell of the grid
    stays a passage, and a cell whose value changes was a wall and becomes a
    passage; nothing else writes the grid. *)
Theorem C9_passages_stay (w h : Z) (s s' : state) (wall_index : Z) :
  1 <= w -> 1 <= h ->
  reachable w h s ->
  loop_guard s = true ->
  0 <= wall_index <= len (removable_walls s) - 1 ->
  loop_body wall_index s = Ok s' ->
  forall x y, 0 <= x < 2 * w + 1 -> 0 <= y < 2 * h + 1 ->
    (cell_at (maze (self s)) x y = Ok CELL_PASSAGE ->
     cell_at (maze (self s')) x y = Ok CELL_PASSAGE)
    /\ (cell_at (maze (self s')) x y <> cell_at (maze (self s)) x y ->
        cell_at (maze (self s)) x y = Ok CELL_WALL
        /\ cell_at (maze (self s')) x y = Ok CELL_PASSAGE).
Proof.
  intros Hw Hh Hr _ Hi Hb x y Hx Hy.
  assert (HI := reachable_Inv w h s Hw Hh Hr).
  destruct (loop_body_spec w h s wall_index HI)
    as (wall & r1 & r2 & _ & _ & _ & Hcase); [lia |].
  destruct Hcase as [[_ E] | [_ (s'' & E & _ & Hbr)]];
    rewrite E in Hb; inversion Hb; subst; [tauto |].
  destruct (Z.eq_dec x (Cell.x wall)) as [-> | Hxne];
    [destruct (Z.eq_dec y (Cell.y wall)) as [-> | Hyne] |].
  - rewrite (br_was_wall _ _ _ Hbr), (br_cell _ _ _ Hbr); tauto.
  - rewrite (br_others _ _ _ Hbr); [tauto | | | now right].
    + rewrite (inv_width _ _ _ HI); lia.
    + rewrite (inv_height _ _ _ HI); lia.
  - rewrite (br_others _ _ _ Hbr); [tauto | | | now left].
    + rewrite (inv_width _ _ _ HI); lia.
    + rewrite (inv_height _ _ _ HI); lia.
Qed.

Lemma C9_passages_stay_witness :
  exists s',
    loop_body 0 (start_state 2 2) = Ok s'
    /\ forall x y, 0 <= x < 2 * 2 + 1 -> 0 <= y < 2 * 2 + 1 ->
    (cell_at (maze (self (start_state 2 2))) x y = Ok CELL_PASSAGE ->
     cell_at (maze (self s')) x y = Ok CELL_PASSAGE)
    /\ (cell_at (maze (self s')) x y <> cell_at (maze (self (start_state 2 2))) x y ->
        cell_at (maze (self (start_state 2 2))) x y = Ok CELL_WALL
        /\ cell_at (maze (self s')) x y = Ok CELL_PASSAGE).
Proof.
  eexists; split; [reflexivity |].
  eapply (C9_passages_stay 2 2 (start_state 2 2) _ 0);
    [lia | lia | apply reach_init; reflexivity | reflexivity | | reflexivity].
  change (0 <= 0 <= 4 - 1); lia.
Defined.

(** C10: every border cell (x = 0, x = 2*width, y = 0 or y = 2*height) is a
    wall in the initial state and in every later state of the run; the
    candidate list and the trace of breached walls hold only interior cells
    with exactly one even coordinate, and every passage that is not an
    odd/odd cell is such a cell. *)
Theorem C10_border_stays_wall (w h : Z) (s : state) :
  1 <= w -> 1 <= h ->
  reachable w h s ->
  (forall x y, 0 <= x < 2 * w + 1 -> 0 <= y < 2 * h + 1 ->
     on_border w h x y -> cell_at (maze (self s)) x y = Ok CELL_WALL)
  /\ (forall c, In c (removable_walls s) -> candidateb w h c = true)
  /\ (forall c, In c (removed_walls s) -> candidateb w h c = true)
  /\ (forall x y, 0 <= x < 2 * w + 1 -> 0 <= y < 2 * h + 1 ->
        cell_at (maze (self s)) x y = Ok CELL_PASSAGE ->
        odd_odd x y = false -> candidateb w h (Cell.mk x y) = true).
Proof.
  intros Hw Hh Hr.
  assert (HI := reachable_Inv w h s Hw Hh Hr).
  split; [| split; [| split]].
  - intros x y Hx Hy Hb; rewrite (inv_cells _ _ _ HI) by assumption.
    unfold expected.
    replace (odd_odd x y) with false
      by (symmetry; apply odd_odd_false; unfold on_border in Hb; zlia).
    destruct (mem (Cell.mk x y) (removed_walls s)) eqn:Hm; [| reflexivity].
    apply mem_In, (inv_removed _ _ _ HI) in Hm as [Hc _].
    apply candidateb_spec in Hc; cbn [Cell.x Cell.y] in Hc.
    unfold on_border in Hb; lia.
  - apply HI.
  - intros c Hc; now apply (inv_removed _ _ _ HI).
  - intros x y Hx Hy Hp Hoo; rewrite (inv_cells _ _ _ HI) in Hp by assumption.
    unfold expected in Hp; rewrite Hoo in Hp; cbn [orb] in Hp.
    destruct (mem (Cell.mk x y) (removed_walls s)) eqn:Hm; [| discriminate].
    now apply mem_In, (inv_removed _ _ _ HI) in Hm.
Qed.

Lemma C10_border_stays_wall_witness :
  (forall x y, 0 <= x < 2 * 2 + 1 -> 0 <= y < 2 * 2 + 1 ->
     on_border 2 2 x y -> cell_at (maze (self (start_state 2 2))) x y = Ok CELL_WALL)
  /\ (forall c, In c (removable_walls (start_state 2 2)) -> candidateb 2 2 c = true)
  /\ (forall c, In c (removed_walls (start_state 2 2)) -> candidateb 2 2 c = true)
  /\ (forall x y, 0 <= x < 2 * 2 + 1 -> 0 <= y < 2 * 2 + 1 ->
        cell_at (maze (self (start_state 2 2))) x y = Ok CELL_PASSAGE ->
        odd_odd x y = false -> candidateb 2 2 (Cell.mk x y) = true).
Proof.
  apply (C10_border_stays_wall 2 2 (start_state 2 2));
    [lia | lia | apply reach_init; reflexivity].
Defined.




(** ** Start and end cells *)

Lemma draw_cell_eq (obj : KruskalMaze) (start : option Cell.t) (draws : list Z) :
  draw_cell obj start draws =
  randint 1 (maze_width obj - 2) draws (fun cx draws1 =>
    randint 1 (maze_height obj - 2) draws1 (fun cy rest =>
      v <- cell_at (maze obj) cx cy ;;
      if negb (v =? CELL_PASSAGE)
         || match start with
            | Some c => (Cell.x c =? cx) && (Cell.y c =? cy)
            | None => false
            end
      then draw_cell obj start rest
      else Ok (Cell.mk cx cy, rest))).
Proof. destruct draws; reflexivity. Qed.

(** A cell the drawing loop hands back lies strictly inside the grid, is a
    passage, and is not the start cell it was told to avoid. *)
Lemma draw_cell_sound (obj : KruskalMaze) (start : option Cell.t) :
  forall (n : nat) (draws : list Z),
    (length draws <= n)%nat ->
    forall c rest,
      draw_cell obj start draws = Ok (c, rest) ->
      1 <= Cell.x c <= maze_width obj - 2
      /\ 1 <= Cell.y c <= maze_height obj - 2
      /\ cell_at (maze obj) (Cell.x c) (Cell.y c) = Ok CELL_PASSAGE
      /\ start <> Some c.
Proof.
  induction n as [| n IH]; intros draws Hlen c rest;
    rewrite draw_cell_eq; unfold randint;
    destruct (maze_width obj - 2 <? 1); try discriminate;
    destruct draws as [| cx [| cy d2]]; try discriminate;
    try (destruct ((1 <=? cx) && (cx <=? maze_width obj - 2));
         destruct (maze_height obj - 2 <? 1); discriminate);
    [cbn [length] in Hlen; lia |].
  destruct ((1 <=? cx) && (cx <=? maze_width obj - 2)) eqn:Hcx;
    [| discriminate].
  destruct (maze_height obj - 2 <? 1); [discriminate |].
  destruct ((1 <=? cy) && (cy <=? maze_height obj - 2)) eqn:Hcy;
    [| discriminate].
  destruct (cell_at (maze obj) cx cy) as [v | e | |] eqn:Hv; cbn [bind];
    try discriminate.
  destruct (negb (v =? CELL_PASSAGE) || _) eqn:Hcond.
  - apply IH; cbn [length] in Hlen; lia.
  - intros [= <- <-]; cbn [Cell.x Cell.y].
    apply orb_false_iff in Hcond as [Hp Hs].
    apply negb_false_iff, Z.eqb_eq in Hp; subst v.
    rewrite !andb_true_iff, !Z.leb_le in Hcx, Hcy.
    repeat split; try lia; try assumption.
    destruct start as [st |]; [| discriminate].
    intros [= ->]; cbn [Cell.x Cell.y] in Hs.
    now rewrite !Z.eqb_refl in Hs.
Qed.

(** On a well-shaped grid of a valid size the drawing loop raises nothing. *)
Lemma draw_cell_no_raise (obj : KruskalMaze) (start : option Cell.t) :
  shaped (maze_width obj) (maze_height obj) (maze obj) ->
  1 <= maze_width obj - 2 -> 1 <= maze_height obj - 2 ->
  forall (n : nat) (draws : list Z) (e : error),
    (length draws <= n)%nat -> draw_cell obj start draws <> Raise e.
Proof.
  intros Hsh Hw Hh; induction n as [| n IH]; intros draws e Hlen;
    rewrite draw_cell_eq; unfold randint;
    (destruct (Z.ltb_spec (maze_width obj - 2) 1); [lia |]);
    (destruct draws as [| cx [| cy d2]]; [discriminate | |]);
    try (destruct ((1 <=? cx) && (cx <=? maze_width obj - 2));
         [destruct (Z.ltb_spec (maze_height obj - 2) 1); [lia |] |];
         discriminate);
    [cbn [length] in Hlen; lia |].
  destruct ((1 <=? cx) && (cx <=? maze_width obj - 2)) eqn:Hcx;
    [| discriminate].
  destruct (Z.ltb_spec (maze_height obj - 2) 1); [lia |].
  destruct ((1 <=? cy) && (cy <=? maze_height obj - 2)) eqn:Hcy;
    [| discriminate].
  rewrite !andb_true_iff, !Z.leb_le in Hcx, Hcy.
  destruct (cell_at_total _ _ _ cx cy Hsh) as (v & ->); [lia | lia |].
  cbn [bind].
  destruct (negb (v =? CELL_PASSAGE) || _); [| discriminate].
  apply IH; cbn [length] in Hlen; lia.
Qed.


Lemma mark_start_end_cells_inv (obj : KruskalMaze) (draws rest : list Z)
    (start end_ : Cell.t) :
  mark_start_end_cells obj draws = Ok (start, end_, rest) ->
  exists draws1,
    draw_cell obj None draws = Ok (start, draws1)
    /\ draw_cell obj (Some start) draws1 = Ok (end_, rest).
Proof.
  unfold mark_start_end_cells; intros H.
  apply bind_Ok_inv in H as ([st d1] & H1 & H).
  apply bind_Ok_inv in H as ([en d2] & H2 & H).
  inversion H; subst; eauto.
Qed.




(** ** The single-cell maze *)

Lemma draw_start_single (rest : list Z) :
  draw_cell (init 1 1) None (1 :: 1 :: rest) = Ok (Cell.mk 1 1, rest).
Proof. reflexivity. Qed.

Lemma draw_end_single (rest : list Z) :
  draw_cell (init 1 1) (Some (Cell.mk 1 1)) (1 :: 1 :: rest)
  = draw_cell (init 1 1) (Some (Cell.mk 1 1)) rest.
Proof. etransitivity; [apply draw_cell_eq | reflexivity]. Qed.

Lemma draw_end_single_starved (n : nat) :
  draw_cell (init 1 1) (Some (Cell.mk 1 1)) (repeat 1 n) = Starved
  /\ draw_cell (init 1 1) (Some (Cell.mk 1 1)) (repeat 1 (S n)) = Starved.
Proof.
  induction n as [| n [IH1 IH2]]; [split; reflexivity |].
  split; [exact IH2 |].
  change (repeat 1 (S (S n))) with (1 :: 1 :: repeat 1 n).
  now rewrite draw_end_single.
Qed.

Lemma generate_single (draws : list Z) :
  generate_maze_kruskal 1 1 draws
  = ('(start, end_, _) <- mark_start_end_cells (init 1 1) draws ;;
     Ok (start_state 1 1, start, end_)).
Proof.
  unfold generate_maze_kruskal; rewrite initial_state_eq; cbn [bind].
  fold (start_state 1 1).
  now rewrite (generation_loop_guard_false draws (start_state 1 1)).
Qed.

(** C8: in the 1 by 1 maze the code does not fail with a too-small-maze
    condition: start/end selection never completes and never raises, whatever
    the draws, and with the only value [randint(1, 1)] can return it is still
    looping after any number of draws. *)
Theorem C8_single_cell_never_ends :
  (forall draws r, generate_maze_kruskal 1 1 draws <> Ok r)
  /\ (forall draws e, generate_maze_kruskal 1 1 draws <> Raise e)
  /\ (forall n, generate_maze_kruskal 1 1 (repeat 1 n) = Starved).
Proof.
  assert (Hsh : shaped (maze_width (init 1 1)) (maze_height (init 1 1))
                       (maze (init 1 1))) by (apply (shaped_init 1 1); lia).
  split; [| split].
  - intros draws [[s st] en]; rewrite generate_single; intros H.
    apply bind_Ok_inv in H as ([[st' en'] d] & Hm & _).
    apply mark_start_end_cells_inv in Hm as (d1 & H1 & H2).
    apply (draw_cell_sound _ _ (length draws) draws (le_n _)) in H1
      as (Hx1 & Hy1 & _).
    apply (draw_cell_sound _ _ (length d1) d1 (le_n _)) in H2
      as (Hx2 & Hy2 & _ & Hne).
    apply Hne; f_equal; destruct st', en'.
    change (maze_width (init 1 1) - 2) with 1 in Hx1, Hx2.
    change (maze_height (init 1 1) - 2) with 1 in Hy1, Hy2.
    cbn [Cell.x Cell.y] in *; f_equal; lia.
  - intros draws e; rewrite generate_single; unfold mark_start_end_cells.
    destruct (draw_cell (init 1 1) None draws) as [[st d1] | e1 | |] eqn:E1;
      cbn [bind]; try discriminate.
    + destruct (draw_cell (init 1 1) (Some st) d1) as [[en d2] | e2 | |] eqn:E2;
        cbn [bind]; try discriminate.
      exfalso; revert E2.
      apply (draw_cell_no_raise _ _ Hsh) with (n := length d1);
        [reflexivity .. | lia].
    + exfalso; revert E1.
      apply (draw_cell_no_raise _ _ Hsh) with (n := length draws);
        [reflexivity .. | lia].
  - intros n; rewrite generate_single; unfold mark_start_end_cells.
    destruct n as [| [| n]]; [reflexivity | reflexivity |].
    change (repeat 1 (S (S n))) with (1 :: 1 :: repeat 1 n).
    rewrite draw_start_single; cbn [bind].
    now rewrite (proj1 (draw_end_single_starved n)).
Qed.

(** ** Sizes below one *)

Lemma window_size_zero_division (w h : Z) :
  (h = 0 /\ w <= 0) \/ (w = 0 /\ h < 0) ->
  window_size w h = Raise ZeroDivisionError.
Proof.
  intros Hz; unfold window_size, floordiv.
  destruct (Z.ltb_spec h w), Hz as [[-> Hw] | [-> Hh]]; try lia; reflexivity.
Qed.

Lemma window_size_ok (w h : Z) :
  ~ ((h = 0 /\ w <= 0) \/ (w = 0 /\ h < 0)) ->
  exists p, window_size w h = Ok p.
Proof.
  intros Hz; unfold window_size, floordiv.
  destruct (Z.ltb_spec h w).
  - destruct (Z.eqb_spec w 0); [lia | cbn [bind]; eauto].
  - destruct (Z.eqb_spec h 0); [lia | cbn [bind]; eauto].
Qed.

Lemma start_state_no_walls (w h : Z) :
  w < 1 \/ h < 1 -> removable_walls (start_state w h) = [].
Proof.
  intros Hsz; cbn [start_state removable_walls]; apply filter_none.
  intros c _; apply not_true_is_false; rewrite candidateb_spec; lia.
Qed.

Lemma generate_invalid (w h : Z) (draws : list Z) :
  w < 1 \/ h < 1 ->
  generate_maze_kruskal w h draws
  = ('(start, end_, _) <- mark_start_end_cells (init w h) draws ;;
     Ok (start_state w h, start, end_)).
Proof.
  intros Hsz; unfold generate_maze_kruskal; rewrite initial_state_eq.
  cbn [bind]; fold (start_state w h).
  rewrite (generation_loop_guard_false draws (start_state w h)); [reflexivity |].
  unfold loop_guard; rewrite (start_state_no_walls w h Hsz); apply andb_false_r.
Qed.

Lemma mark_narrow (w h : Z) (draws : list Z) :
  w < 1 -> mark_start_end_cells (init w h) draws = Raise ValueError.
Proof.
  intros Hw; unfold mark_start_end_cells; rewrite draw_cell_eq; unfold randint.
  change (maze_width (init w h)) with (w * 2 + 1).
  destruct (Z.ltb_spec (w * 2 + 1 - 2) 1); [reflexivity | lia].
Qed.

Lemma mark_flat (w h : Z) (draws : list Z) :
  1 <= w -> h < 1 ->
  (forall r, mark_start_end_cells (init w h) draws <> Ok r)
  /\ (forall cx rest, draws = cx :: rest -> 1 <= cx <= 2 * w - 1 ->
        mark_start_end_cells (init w h) draws = Raise ValueError).
Proof.
  intros Hw Hh; unfold mark_start_end_cells; rewrite draw_cell_eq.
  unfold randint.
  change (maze_width (init w h)) with (w * 2 + 1).
  change (maze_height (init w h)) with (h * 2 + 1).
  destruct (Z.ltb_spec (w * 2 + 1 - 2) 1); [lia |].
  destruct (Z.ltb_spec (h * 2 + 1 - 2) 1); [| lia].
  destruct draws as [| cx rest]; [split; [discriminate | discriminate] |].
  destruct ((1 <=? cx) && (cx <=? w * 2 + 1 - 2)) eqn:Hv; cbn [bind].
  - split; [discriminate | reflexivity].
  - split; [discriminate |].
    intros cx' rest' [= <- <-] Hcx.
    rewrite andb_false_iff, !Z.leb_gt in Hv; lia.
Qed.

(** C5, as the spec states it, fails: for width 0 and height 1 nothing is
    rejected at once and no invalid-size condition is raised.  The 1 by 3
    grid of walls is built, the candidate scan runs, and the constructor ends
    with the ValueError of [random.randint] in [mark_start_end_cells]. *)
Lemma C5_counterexample :
  0 < 1
  /\ maze (init 0 1) = [[1]; [1]; [1]]
  /\ initial_state 0 1
     = Ok {| self := {| maze_width := 1;
                        maze_height := 3;
                        maze := [[1]; [1]; [1]];
                        disjoint_set := DisjointSet.make 0 1 |};
             removable_walls := [];
             removed_walls := [] |}
  /\ forall draws, KruskalMaze_init 0 1 draws = Raise ValueError.
Proof.
  split; [lia |]; split; [reflexivity |]; split; [reflexivity |].
  intros draws; unfold KruskalMaze_init.
  change (window_size 0 1) with (@Ok (Z * Z) (0, 750)); cbn [bind].
  rewrite generate_invalid by lia.
  now rewrite mark_narrow by lia.
Qed.

(** C5, amended: for width < 1 or height < 1 the constructor makes no size
    check.  It first builds a grid of max(0, 2*height+1) rows of
    max(0, 2*width+1) cells, all of them walls, and then always ends in an
    exception, never in a result: ZeroDivisionError from the window size when
    height = 0 >= width or width = 0 > height, before
    [generate_maze_kruskal] is called; otherwise the candidate list is built
    empty, the generation loop ends without running its body, and
    [random.randint] raises ValueError in [mark_start_end_cells], at once
    when width < 1 and after the first draw when width >= 1. *)
Theorem C5_no_size_check (w h : Z) :
  w < 1 \/ h < 1 ->
  len (maze (init w h)) = Z.max 0 (2 * h + 1)
  /\ (forall row, In row (maze (init w h)) ->
        len row = Z.max 0 (2 * w + 1)
        /\ forall v, In v row -> v = CELL_WALL)
  /\ (forall draws r, KruskalMaze_init w h draws <> Ok r)
  /\ ((h = 0 /\ w <= 0) \/ (w = 0 /\ h < 0) ->
      forall draws, KruskalMaze_init w h draws = Raise ZeroDivisionError)
  /\ (~ ((h = 0 /\ w <= 0) \/ (w = 0 /\ h < 0)) ->
      exists s0,
        initial_state w h = Ok s0
        /\ removable_walls s0 = []
        /\ (forall draws, generation_loop draws s0 = Ok (s0, draws))
        /\ (w < 1 ->
            forall draws, KruskalMaze_init w h draws = Raise ValueError)
        /\ (1 <= w ->
            forall cx rest, 1 <= cx <= 2 * w - 1 ->
              KruskalMaze_init w h (cx :: rest) = Raise ValueError)).
Proof.
  intros Hsz.
  assert (Hnil := start_state_no_walls w h Hsz).
  split; [| split; [| split; [| split]]].
  - rewrite maze_init, len_map, len_range; lia.
  - rewrite maze_init; intros row Hrow.
    apply in_map_iff in Hrow as (y & <- & Hy); apply In_range in Hy.
    split; [rewrite len_map, len_range; lia |].
    intros v Hv; apply in_map_iff in Hv as (x & <- & Hx); apply In_range in Hx.
    destruct (odd_odd x y) eqn:E; [| reflexivity].
    apply odd_odd_spec in E; zlia.
  - intros draws r; unfold KruskalMaze_init.
    destruct (window_size w h) as [p | e | |]; cbn [bind]; try discriminate.
    rewrite generate_invalid by assumption.
    destruct (Z.lt_ge_cases w 1) as [Hw | Hw].
    + now rewrite mark_narrow.
    + destruct (mark_start_end_cells (init w h) draws) as [q | | |] eqn:E;
        cbn [bind]; try discriminate.
      exfalso; assert (Hh : h < 1) by lia.
      now apply (proj1 (mark_flat w h draws Hw Hh) q).
  - intros Hz draws; unfold KruskalMaze_init.
    now rewrite window_size_zero_division.
  - intros Hz; exists (start_state w h).
    split; [apply initial_state_eq |]; split; [exact Hnil |].
    destruct (window_size_ok w h Hz) as (p & Hp).
    split; [| split].
    + intros draws; apply generation_loop_guard_false.
      unfold loop_guard; rewrite Hnil; apply andb_false_r.
    + intros Hw draws; unfold KruskalMaze_init; rewrite Hp; cbn [bind].
      rewrite generate_invalid by assumption.
      now rewrite mark_narrow.
    + intros Hw cx rest Hcx; unfold KruskalMaze_init; rewrite Hp; cbn [bind].
      rewrite generate_invalid by assumption.
      assert (Hh : h < 1) by lia.
      now rewrite (proj2 (mark_flat w h (cx :: rest) Hw Hh) cx rest eq_refl Hcx).
Qed.

Lemma C5_no_size_check_witness :
  len (maze (init 0 1)) = Z.max 0 (2 * 1 + 1)
  /\ (forall row, In row (maze (init 0 1)) ->
        len row = Z.max 0 (2 * 0 + 1)
        /\ forall v, In v row -> v = CELL_WALL)
  /\ (forall draws r, KruskalMaze_init 0 1 draws <> Ok r)
  /\ ((1 = 0 /\ 0 <= 0) \/ (0 = 0 /\ 1 < 0) ->
      forall draws, KruskalMaze_init 0 1 draws = Raise ZeroDivisionError)
  /\ (~ ((1 = 0 /\ 0 <= 0) \/ (0 = 0 /\ 1 < 0)) ->
      exists s0,
        initial_state 0 1 = Ok s0
        /\ removable_walls s0 = []
        /\ (forall draws, generation_loop draws s0 = Ok (s0, draws))
        /\ (0 < 1 ->
            forall draws, KruskalMaze_init 0 1 draws = Raise ValueError)
        /\ (1 <= 0 ->
            forall cx rest, 1 <= cx <= 2 * 0 - 1 ->
              KruskalMaze_init 0 1 (cx :: rest) = Raise ValueError)).
Proof. apply (C5_no_size_check 0 1); lia. Defined.

(** The window size does raise for sizes such as 0 by 0 and 0 by -1. *)
Example zero_division_sizes :
  (forall draws, KruskalMaze_init 0 0 draws = Raise ZeroDivisionError)
  /\ (forall draws, KruskalMaze_init 0 (-1) draws = Raise ZeroDivisionError).
Proof.
  split; intros draws; unfold KruskalMaze_init;
    rewrite window_size_zero_division by lia; reflexivity.
Qed.

(** * Further properties of the code *)

(** ** [is_wall_removable] on any grid *)

Lemma getitem_past_end {A : Type} (l : list A) (i : Z) :
  len l <= i -> getitem l i = Raise IndexError.
Proof.
  intros Hi; unfold getitem, norm_index.
  assert (H0 := len_nonneg l).
  destruct (Z.ltb_spec i 0); [lia |].
  destruct (Z.ltb_spec i 0); [lia |].
  destruct (Z.leb_spec (len l) i); [reflexivity | lia].
Qed.

Lemma getitem_negative {A : Type} (l : list A) (i : Z) :
  - len l <= i < 0 -> getitem l i = getitem l (i + len l).
Proof.
  intros Hi; unfold getitem, norm_index.
  rewrite (proj2 (Z.ltb_lt i 0)) by lia.
  cbv beta iota zeta.
  now rewrite !(proj2 (Z.ltb_ge (i + len l) 0)) by lia.
Qed.

(** X1: on a grid of [maze_height] rows of [maze_width] cells,
    [is_wall_removable] raises nothing for a cell of the grid and answers
    true exactly when the cell is a wall, lies on none of the four borders
    and has a passage among its four neighbours. *)
Theorem is_wall_removable_contract (obj : KruskalMaze) (c : Cell.t) :
  shaped (maze_width obj) (maze_height obj) (maze obj) ->
  0 <= Cell.x c < maze_width obj ->
  0 <= Cell.y c < maze_height obj ->
  exists b,
    is_wall_removable obj c = Ok b
    /\ (b = true <->
        cell_at (maze obj) (Cell.x c) (Cell.y c) = Ok CELL_WALL
        /\ 0 < Cell.x c < maze_width obj - 1
        /\ 0 < Cell.y c < maze_height obj - 1
        /\ passage_neighbour (maze obj) (Cell.x c) (Cell.y c)).
Proof.
  destruct c as [x y]; cbn [Cell.x Cell.y]; intros Hsh Hx Hy.
  unfold is_wall_removable, passage_neighbour; cbn [Cell.x Cell.y].
  destruct (cell_at_total _ _ _ x y Hsh Hx Hy) as (v & Hv); rewrite Hv.
  cbn [bind].
  destruct (Z.eqb_spec v CELL_WALL) as [-> | Hnw].
  2:{ exists false; split; [reflexivity |].
      split; [discriminate | intros [[= E] _]; contradiction]. }
  destruct ((x =? 0) || (x =? maze_width obj - 1)
            || (y =? 0) || (y =? maze_height obj - 1)) eqn:Eedge.
  { exists false; split; [reflexivity |].
    rewrite !orb_true_iff, !Z.eqb_eq in Eedge.
    split; [discriminate | intros (_ & Hbx & Hby & _); lia]. }
  rewrite !orb_false_iff, !Z.eqb_neq in Eedge.
  destruct (cell_at_total _ _ _ x (y - 1) Hsh) as (up & Hup); [lia | lia |].
  destruct (cell_at_total _ _ _ x (y + 1) Hsh) as (dn & Hdn); [lia | lia |].
  destruct (cell_at_total _ _ _ (x - 1) y Hsh) as (lf & Hlf); [lia | lia |].
  destruct (cell_at_total _ _ _ (x + 1) y Hsh) as (rt & Hrt); [lia | lia |].
  rewrite Hup, Hdn, Hlf, Hrt; cbn [bind].
  destruct (Z.eqb_spec up CELL_PASSAGE) as [-> | Nup];
    [exists true; split; [reflexivity |]; split; [intros _ | reflexivity];
     repeat split; try lia; auto |].
  destruct (Z.eqb_spec dn CELL_PASSAGE) as [-> | Ndn];
    [exists true; split; [reflexivity |]; split; [intros _ | reflexivity];
     repeat split; try lia; auto |].
  destruct (Z.eqb_spec lf CELL_PASSAGE) as [-> | Nlf];
    [exists true; split; [reflexivity |]; split; [intros _ | reflexivity];
     repeat split; try lia; auto |].
  destruct (Z.eqb_spec rt CELL_PASSAGE) as [-> | Nrt];
    [exists true; split; [reflexivity |]; split; [intros _ | reflexivity];
     repeat split; try lia; auto |].
  exists false; split; [reflexivity |].
  split; [discriminate |].
  intros (_ & _ & _ & [H | [H | [H | H]]]); congruence.
Qed.

Lemma is_wall_removable_contract_witness :
  exists b,
    is_wall_removable (init 2 2) (Cell.mk 2 1) = Ok b
    /\ (b = true <->
        cell_at (maze (init 2 2)) 2 1 = Ok CELL_WALL
        /\ 0 < 2 < maze_width (init 2 2) - 1
        /\ 0 < 1 < maze_height (init 2 2) - 1
        /\ passage_neighbour (maze (init 2 2)) 2 1).
Proof.
  apply (is_wall_removable_contract (init 2 2) (Cell.mk 2 1));
    [apply (shaped_init 2 2); lia | cbv; split; congruence
    | cbv; split; congruence].
Defined.

(** X2: [is_wall_removable] does not guard its indices: for a cell below
    the last row, or in a row of the grid but right of the last column, it
    raises IndexError. *)
Theorem is_wall_removable_past_edge (obj : KruskalMaze) (c : Cell.t) :
  shaped (maze_width obj) (maze_height obj) (maze obj) ->
  maze_height obj <= Cell.y c
  \/ (0 <= Cell.y c < maze_height obj /\ maze_width obj <= Cell.x c) ->
  is_wall_removable obj c = Raise IndexError.
Proof.
  intros [Hlen Hrows] Hout; unfold is_wall_removable, cell_at.
  destruct Hout as [Hy | [Hy Hx]].
  - now rewrite getitem_past_end by lia.
  - destruct (getitem_total (maze obj) (Cell.y c)) as (row & -> & Hin); [lia |].
    cbn [bind]; rewrite getitem_past_end; [reflexivity |].
    rewrite (Hrows _ Hin); lia.
Qed.

Lemma is_wall_removable_past_edge_witness :
  is_wall_removable (init 2 2) (Cell.mk 5 1) = Raise IndexError.
Proof.
  apply (is_wall_removable_past_edge (init 2 2) (Cell.mk 5 1));
    [apply (shaped_init 2 2); lia |].
  right; cbv; repeat split; congruence.
Defined.

Lemma cell_at_init_negative (w h x y : Z) :
  0 <= w -> - (2 * w + 1) <= x < 0 -> 0 <= y < 2 * h + 1 ->
  cell_at (maze (init w h)) x y
  = cell_at (maze (init w h)) (x + (2 * w + 1)) y.
Proof.
  intros Hw Hx Hy; rewrite maze_init; unfold cell_at.
  rewrite getitem_map_range by lia; cbn [bind].
  rewrite getitem_negative; rewrite len_map, len_range; [| lia].
  f_equal; lia.
Qed.

(** X3: a negative column index slips past the border test: on the fresh
    grid of a width >= 1 by height >= 1 maze, the right border cell of an odd
    row is reported removable when it is addressed as column -1, although it
    is not when addressed as column 2*width. *)
Theorem is_wall_removable_negative_column (w h y : Z) :
  1 <= w -> 1 <= h -> 1 <= y <= 2 * h - 1 -> y mod 2 = 1 ->
  is_wall_removable (init w h) (Cell.mk (-1) y) = Ok true
  /\ is_wall_removable (init w h) (Cell.mk (2 * w) y) = Ok false.
Proof.
  intros Hw Hh Hy Hodd; split.
  - unfold is_wall_removable; cbn [Cell.x Cell.y].
    change (maze_width (init w h)) with (w * 2 + 1).
    change (maze_height (init w h)) with (h * 2 + 1).
    rewrite (cell_at_init_negative w h (-1) y) by lia.
    rewrite (cell_at_init_negative w h (-1) (y - 1)) by lia.
    rewrite (cell_at_init_negative w h (-1) (y + 1)) by lia.
    rewrite (cell_at_init_negative w h (-1 - 1) y) by lia.
    rewrite !cell_at_init by lia.
    replace (odd_odd (-1 + (2 * w + 1)) y) with false
      by (symmetry; apply odd_odd_false; zlia).
    cbn [bind]; change (CELL_WALL =? CELL_WALL) with true; cbn iota.
    destruct (Z.eqb_spec (-1) 0); [lia |].
    destruct (Z.eqb_spec (-1) (w * 2 + 1 - 1)); [lia |].
    destruct (Z.eqb_spec y 0); [lia |].
    destruct (Z.eqb_spec y (h * 2 + 1 - 1)); [lia |].
    cbn [orb].
    replace (odd_odd (-1 + (2 * w + 1)) (y - 1)) with false
      by (symmetry; apply odd_odd_false; zlia).
    replace (odd_odd (-1 + (2 * w + 1)) (y + 1)) with false
      by (symmetry; apply odd_odd_false; zlia).
    replace (odd_odd (-1 - 1 + (2 * w + 1)) y) with true
      by (symmetry; apply odd_odd_spec; zlia).
    reflexivity.
  - rewrite is_wall_removable_init by (cbn [Cell.x Cell.y]; lia).
    f_equal; apply not_true_is_false; rewrite candidateb_spec.
    cbn [Cell.x Cell.y]; lia.
Qed.

Lemma is_wall_removable_negative_column_witness :
  is_wall_removable (init 2 2) (Cell.mk (-1) 1) = Ok true
  /\ is_wall_removable (init 2 2) (Cell.mk (2 * 2) 1) = Ok false.
Proof.
  apply (is_wall_removable_negative_column 2 2 1); [lia | lia | lia |].
  reflexivity.
Defined.

(** ** The candidate walls *)

(** X4: a candidate wall lies midway between the two cells
    [generate_maze_kruskal] derives from it; both are odd/odd cells inside
    the grid, and they stand for two logical cells that are neighbours, the
    second to the right of the first or below it. *)
Theorem adjacent_cells_neighbours (w h : Z) (wall : Cell.t) :
  candidateb w h wall = true ->
  let cell1 := fst (adjacent_cells wall) in
  let cell2 := snd (adjacent_cells wall) in
  in_range w h cell1 /\ in_range w h cell2
  /\ Cell.x cell1 + Cell.x cell2 = 2 * Cell.x wall
  /\ Cell.y cell1 + Cell.y cell2 = 2 * Cell.y wall
  /\ (to_logical cell2
      = Cell.mk (Cell.x (to_logical cell1) + 1) (Cell.y (to_logical cell1))
      \/ to_logical cell2
         = Cell.mk (Cell.x (to_logical cell1)) (Cell.y (to_logical cell1) + 1)).
Proof.
  intros Hc; cbv zeta.
  destruct (adjacent_in_range w h wall Hc) as [H1 H2].
  do 2 (split; [assumption |]).
  apply candidateb_spec in Hc as (Hx & Hy & Hxy).
  unfold adjacent_cells, to_logical.
  destruct (Z.eqb_spec (Cell.x wall mod 2) 1); cbn [fst snd Cell.x Cell.y];
    (split; [lia |]); (split; [lia |]); [right | left]; f_equal; zlia.
Qed.

Lemma adjacent_cells_neighbours_witness :
  let cell1 := fst (adjacent_cells (Cell.mk 2 1)) in
  let cell2 := snd (adjacent_cells (Cell.mk 2 1)) in
  in_range 2 2 cell1 /\ in_range 2 2 cell2
  /\ Cell.x cell1 + Cell.x cell2 = 2 * 2
  /\ Cell.y cell1 + Cell.y cell2 = 2 * 1
  /\ (to_logical cell2
      = Cell.mk (Cell.x (to_logical cell1) + 1) (Cell.y (to_logical cell1))
      \/ to_logical cell2
         = Cell.mk (Cell.x (to_logical cell1)) (Cell.y (to_logical cell1) + 1)).
Proof. apply (adjacent_cells_neighbours 2 2 (Cell.mk 2 1)); reflexivity. Defined.

Lemma In_inner_walls (w h : Z) (c : Cell.t) :
  In c (inner_walls w h) <-> candidateb w h c = true.
Proof.
  unfold inner_walls; rewrite in_app_iff, !in_map_iff, candidateb_spec; split.
  - intros [(l & <- & Hl) | (l & <- & Hl)]; apply In_grid_cells in Hl;
      unfold wall_right, wall_below; cbn [Cell.x Cell.y]; zlia.
  - intros (Hx & Hy & Hxy).
    destruct (Z.eq_dec (Cell.x c mod 2) 1) as [Hodd | Heven].
    + right; exists (Cell.mk ((Cell.x c - 1) / 2) (Cell.y c / 2 - 1)); split.
      * unfold wall_below; destruct c as [x y]; cbn [Cell.x Cell.y] in *.
        f_equal; zlia.
      * apply In_grid_cells; cbn [Cell.x Cell.y]; zlia.
    + left; exists (Cell.mk (Cell.x c / 2 - 1) ((Cell.y c - 1) / 2)); split.
      * unfold wall_right; destruct c as [x y]; cbn [Cell.x Cell.y] in *.
        f_equal; zlia.
      * apply In_grid_cells; cbn [Cell.x Cell.y]; zlia.
Qed.

Lemma NoDup_inner_walls (w h : Z) : NoDup (inner_walls w h).
Proof.
  unfold inner_walls; apply NoDup_app.
  - apply Finite.Injective_map_NoDup; [| apply NoDup_grid_cells].
    intros [a b] [a' b']; unfold wall_right; cbn [Cell.x Cell.y]; intros E.
    assert (E1 := f_equal Cell.x E); assert (E2 := f_equal Cell.y E).
    cbn [Cell.x Cell.y] in E1, E2; f_equal; lia.
  - apply Finite.Injective_map_NoDup; [| apply NoDup_grid_cells].
    intros [a b] [a' b']; unfold wall_below; cbn [Cell.x Cell.y]; intros E.
    assert (E1 := f_equal Cell.x E); assert (E2 := f_equal Cell.y E).
    cbn [Cell.x Cell.y] in E1, E2; f_equal; lia.
  - intros c H1 H2.
    apply in_map_iff in H1 as (l1 & <- & _), H2 as (l2 & E & _).
    unfold wall_right, wall_below in E.
    assert (E1 := f_equal Cell.x E); cbn [Cell.x] in E1; lia.
Qed.

(** X5: for every width >= 1 and height >= 1 the scan that fills
    [removable_walls] finds, without repetition, exactly the walls between
    horizontally and between vertically neighbouring logical cells:
    (width - 1) * height + width * (height - 1) walls in all. *)
Theorem scan_finds_inner_walls (w h : Z) (s0 : state) :
  1 <= w -> 1 <= h ->
  initial_state w h = Ok s0 ->
  NoDup (removable_walls s0)
  /\ Permutation (removable_walls s0) (inner_walls w h)
  /\ len (removable_walls s0) = (w - 1) * h + w * (h - 1).
Proof.
  intros Hw Hh; rewrite initial_state_eq; intros [= <-].
  cbn [removable_walls].
  assert (Hnd : NoDup (filter (candidateb w h)
                         (grid_cells (w * 2 + 1) (h * 2 + 1))))
    by apply NoDup_filter, NoDup_grid_cells.
  assert (Hperm : Permutation
                    (filter (candidateb w h) (grid_cells (w * 2 + 1) (h * 2 + 1)))
                    (inner_walls w h)).
  { apply NoDup_Permutation; [assumption | apply NoDup_inner_walls |].
    intros c; rewrite In_inner_walls, filter_In, In_grid_cells.
    split; [tauto |].
    intros Hc; split; [| assumption].
    apply candidateb_spec in Hc; lia. }
  split; [assumption |]; split; [assumption |].
  unfold len; rewrite (Permutation_length Hperm).
  fold (len (inner_walls w h)); unfold inner_walls.
  rewrite len_app, !len_map, !len_grid_cells by lia; lia.
Qed.

Lemma scan_finds_inner_walls_witness :
  initial_state 3 2 = Ok (start_state 3 2)
  /\ NoDup (removable_walls (start_state 3 2))
  /\ Permutation (removable_walls (start_state 3 2)) (inner_walls 3 2)
  /\ len (removable_walls (start_state 3 2)) = (3 - 1) * 2 + 3 * (2 - 1).
Proof.
  split; [vm_compute; reflexivity |].
  apply (scan_finds_inner_walls 3 2); [lia | lia | vm_compute; reflexivity].
Defined.

(** X6: no candidate is lost or duplicated: in every state of the loop the
    candidate list followed by the trace of breached walls is a
    rearrangement of the list the scan built. *)
Theorem walls_conserved (w h : Z) (s0 s : state) :
  1 <= w -> 1 <= h ->
  initial_state w h = Ok s0 ->
  reachable w h s ->
  Permutation (removable_walls s0) (removable_walls s ++ removed_walls s).
Proof.
  intros Hw Hh H0 Hr; induction Hr as [s1 H1 | s s' i Hr IH Hg Hi Hb].
  - assert (s1 = s0) by congruence; subst s1.
    rewrite initial_state_eq in H0; inversion H0; cbn [removable_walls
      removed_walls]; now rewrite app_nil_r.
  - assert (HI := reachable_Inv w h s Hw Hh Hr).
    destruct (loop_body_spec w h s i HI)
      as (wall & r1 & r2 & _ & _ & _ & Hcase); [lia |].
    destruct Hcase as [[_ E] | [_ (s'' & E & _ & Hbr)]];
      rewrite E in Hb; inversion Hb; subst; [assumption |].
    rewrite IH, (br_walls _ _ _ Hbr), (br_removed _ _ _ Hbr).
    cbn [app]; rewrite app_assoc; apply Permutation_cons_append.
Qed.

Lemma walls_conserved_witness :
  exists s,
    loop_body 0 (start_state 2 2) = Ok s
    /\ Permutation (removable_walls (start_state 2 2))
                   (removable_walls s ++ removed_walls s).
Proof.
  eexists; split; [cbv; reflexivity |].
  apply (walls_conserved 2 2); [lia | lia | vm_compute; reflexivity |].
  apply (reach_step 2 2 (start_state 2 2) _ 0);
    [apply reach_init; vm_compute; reflexivity | vm_compute; reflexivity |
    | vm_compute; reflexivity].
  split; apply Z.leb_le; vm_compute; reflexivity.
Defined.

(** X7: when the loop of a width >= 1 by height >= 1 maze has ended,
    exactly (width - 1) * (height - 1) candidates are left unbreached in
    [removable_walls]. *)
Theorem leftover_walls (w h : Z) (s0 s : state) (draws rest : list Z) :
  1 <= w -> 1 <= h ->
  initial_state w h = Ok s0 ->
  generation_loop draws s0 = Ok (s, rest) ->
  len (removable_walls s) = (w - 1) * (h - 1).
Proof.
  intros Hw Hh H0 Hrun.
  assert (H := generation_loop_reachable w h draws s0 Hw Hh (reach_init _ _ _ H0)).
  rewrite Hrun in H; destruct H as [Hr Hg].
  assert (HI := reachable_Inv w h s Hw Hh Hr).
  assert (Hone := exit_count w h s Hw Hh HI Hg).
  assert (Hcnt := inv_count _ _ _ HI).
  assert (Hperm := walls_conserved w h s0 s Hw Hh H0 Hr).
  destruct (scan_finds_inner_walls w h s0 Hw Hh H0) as (_ & _ & Hlen).
  apply Permutation_length in Hperm; rewrite length_app in Hperm.
  unfold len in *; nia.
Qed.

Lemma leftover_walls_witness :
  exists s,
    generation_loop [0; 0; 0] (start_state 2 2) = Ok (s, [])
    /\ len (removable_walls s) = (2 - 1) * (2 - 1).
Proof.
  eexists; split; [cbv; reflexivity |].
  apply (leftover_walls 2 2 (start_state 2 2) _ [0; 0; 0] []);
    [lia | lia | vm_compute; reflexivity | vm_compute; reflexivity].
Defined.

(** ** Components and passages *)

Lemma joined_sym (walls : list Cell.t) (a b : Cell.t) :
  joined walls a b -> joined walls b a.
Proof. intros (wall & Hin & H); exists wall; tauto. Qed.

Lemma path_trans (walls : list Cell.t) (a b c : Cell.t) :
  path walls a b -> path walls b c -> path walls a c.
Proof.
  intros Hab Hbc; induction Hbc as [| c d _ IH Hj]; [assumption |].
  eapply path_more; [exact IH | exact Hj].
Qed.

Lemma path_sym (walls : list Cell.t) (a b : Cell.t) :
  path walls a b -> path walls b a.
Proof.
  intros H; induction H as [| b c _ IH Hj]; [constructor |].
  eapply path_trans; [| exact IH].
  eapply path_more; [constructor | now apply joined_sym].
Qed.

Lemma path_mono (walls walls' : list Cell.t) (a b : Cell.t) :
  incl walls walls' -> path walls a b -> path walls' a b.
Proof.
  intros Hincl H; induction H as [| b c _ IH (wall & Hin & Hj)];
    [constructor |].
  eapply path_more; [exact IH |]; exists wall; auto.
Qed.

Lemma connected_sym (ds : DisjointSet.t) (a b : Cell.t) :
  connected ds a b -> connected ds b a.
Proof. intros (r & Ha & Hb); now exists r. Qed.

Lemma connected_trans (ds : DisjointSet.t) (a b c : Cell.t) :
  connected ds a b -> connected ds b c -> connected ds a c.
Proof.
  intros (r & Ha & Hb) (r' & Hb' & Hc).
  assert (r' = r) by congruence; subst; now exists r.
Qed.

Lemma in_range_logical_inj (w h : Z) (a b : Cell.t) :
  in_range w h a -> in_range w h b -> to_logical a = to_logical b -> a = b.
Proof.
  intros (Hax & Hay & _) (Hbx & Hby & _) E.
  assert (E1 := f_equal Cell.x E); assert (E2 := f_equal Cell.y E).
  unfold to_logical in E1, E2; cbn [Cell.x Cell.y] in E1, E2.
  destruct a, b; cbn [Cell.x Cell.y] in *; f_equal; zlia.
Qed.

Lemma lookup_make (w h : Z) (l p : Cell.t) (n : Z) :
  DisjointSet.lookup l (DisjointSet.nodes (DisjointSet.make w h)) = Ok (p, n) ->
  p = l.
Proof.
  intros H; apply lookup_In in H; cbn [DisjointSet.make DisjointSet.nodes] in H.
  apply in_map_iff in H as (c & E & _); congruence.
Qed.

(** In the fresh disjoint set a cell is connected to itself only. *)
Lemma connected_make (w h : Z) (a b : Cell.t) :
  0 <= w -> 0 <= h -> connected (DisjointSet.make w h) a b -> a = b.
Proof.
  intros Hw Hh (r & Ha & Hb).
  assert (Hwf := make_wf w h Hw Hh).
  apply (find_lookup w h _ _ _ Hwf) in Ha as [Hra (sa & Ha)].
  apply (find_lookup w h _ _ _ Hwf) in Hb as [Hrb (sb & Hb)].
  apply lookup_make in Ha, Hb.
  apply (in_range_logical_inj w h); congruence.
Qed.

(** What a breach does to the components: two cells connected afterwards
    were connected before, or lay one on each side of the breached wall. *)
Lemma breach_components (w h : Z) (s s' : state) (i : Z) (wall : Cell.t) :
  Inv w h s ->
  0 <= i < len (removable_walls s) ->
  getitem (removable_walls s) i = Ok wall ->
  loop_body i s = Ok s' ->
  ~ connected (disjoint_set (self s))
      (fst (adjacent_cells wall)) (snd (adjacent_cells wall)) ->
  forall a b,
    connected (disjoint_set (self s')) a b ->
    connected (disjoint_set (self s)) a b
    \/ (connected (disjoint_set (self s)) a (fst (adjacent_cells wall))
        /\ connected (disjoint_set (self s)) (snd (adjacent_cells wall)) b)
    \/ (connected (disjoint_set (self s)) a (snd (adjacent_cells wall))
        /\ connected (disjoint_set (self s)) (fst (adjacent_cells wall)) b).
Proof.
  intros HI Hi Hget Hb Hnc a b Hab.
  assert (Hwf := inv_ds _ _ _ HI).
  assert (Hc : candidateb w h wall = true)
    by (eapply inv_walls; eauto; eapply getitem_In; eauto).
  destruct (adjacent_in_range w h wall Hc) as [H1 H2].
  destruct (find_total w h _ _ Hwf H1) as (r1 & Hf1).
  destruct (find_total w h _ _ Hwf H2) as (r2 & Hf2).
  assert (Hne : r1 <> r2) by (intros ->; apply Hnc; now exists r2).
  destruct (union_spec w h _ _ _ r1 r2 Hwf Hf1 Hf2 Hne)
    as (ds' & small & big & Hu & Hwf' & _ & Hsb & Hor & Hfind).
  assert (Hds : disjoint_set (self s') = ds').
  { unfold loop_body in Hb; rewrite Hget in Hb; cbn [bind] in Hb.
    rewrite (surjective_pairing (adjacent_cells wall)) in Hb.
    rewrite Hf1, Hf2 in Hb; cbn [bind] in Hb.
    rewrite (Cell_eqb_neq r1 r2 Hne) in Hb; cbn [negb] in Hb.
    apply bind_Ok_inv in Hb as (m' & _ & Hb).
    rewrite Hu in Hb; cbn [bind] in Hb.
    apply bind_Ok_inv in Hb as (walls' & _ & Hb).
    now inversion Hb. }
  rewrite Hds in Hab; destruct Hab as (r & Ha & Hb').
  assert (Hra := find_in_range w h _ _ _ Hwf' Ha).
  assert (Hrb := find_in_range w h _ _ _ Hwf' Hb').
  destruct (find_total w h _ _ Hwf Hra) as (ra & Hfa).
  destruct (find_total w h _ _ Hwf Hrb) as (rb & Hfb).
  rewrite (Hfind _ _ Hfa) in Ha; rewrite (Hfind _ _ Hfb) in Hb'.
  assert (E : relabel small big ra = relabel small big rb) by congruence.
  unfold relabel in E.
  destruct (Cell_eqb_spec ra small) as [Eas | Nas],
           (Cell_eqb_spec rb small) as [Ebs | Nbs].
  - left; exists ra; split; congruence.
  - right; destruct Hor as [[Es Eb] | [Es Eb]]; [left | right];
      split; [exists ra | exists rb | exists ra | exists rb];
      split; congruence.
  - right; destruct Hor as [[Es Eb] | [Es Eb]]; [right | left];
      split; [exists ra | exists rb | exists ra | exists rb];
      split; congruence.
  - left; exists ra; split; congruence.
Qed.

Lemma connected_path (w h : Z) (s : state) :
  1 <= w -> 1 <= h -> reachable w h s ->
  forall a b, connected (disjoint_set (self s)) a b ->
              path (removed_walls s) a b.
Proof.
  intros Hw Hh Hr; induction Hr as [s0 H0 | s s' i Hr IH Hg Hi Hb];
    intros a b Hab.
  - rewrite initial_state_eq in H0; inversion H0; subst s0.
    cbn [self disjoint_set init] in Hab.
    apply connected_make in Hab; [subst; constructor | lia | lia].
  - assert (HI := reachable_Inv w h s Hw Hh Hr).
    destruct (loop_body_spec w h s i HI)
      as (wall & r1 & r2 & Hget & Hf1 & Hf2 & Hcase); [lia |].
    destruct Hcase as [[_ E] | [Hne (s'' & E & _ & Hbr)]];
      rewrite E in Hb; inversion Hb; subst; [auto |].
    assert (Hnc : ~ connected (disjoint_set (self s))
                    (fst (adjacent_cells wall)) (snd (adjacent_cells wall))).
    { intros (r & Ha & Hb'); apply Hne; congruence. }
    assert (Hincl : incl (removed_walls s) (removed_walls s')).
    { rewrite (br_removed _ _ _ Hbr); intros c Hc; apply in_or_app; now left. }
    assert (Hj : joined (removed_walls s')
                   (fst (adjacent_cells wall)) (snd (adjacent_cells wall))).
    { exists wall; split.
      - rewrite (br_removed _ _ _ Hbr); apply in_or_app; right; now left.
      - left; apply surjective_pairing. }
    destruct (breach_components w h s s' i wall HI ltac:(lia) Hget E Hnc a b Hab)
      as [H | [[Ha Hb'] | [Ha Hb']]].
    + eapply path_mono; eauto.
    + eapply path_trans; [eapply path_mono; [exact Hincl | eauto] |].
      eapply path_trans; [eapply path_more; [constructor | exact Hj] |].
      eapply path_mono; [exact Hincl | eauto].
    + eapply path_trans; [eapply path_mono; [exact Hincl | eauto] |].
      eapply path_trans;
        [eapply path_more; [constructor | apply joined_sym; exact Hj] |].
      eapply path_mono; [exact Hincl | eauto].
Qed.

Lemma joined_connected (w h : Z) (s : state) (a b : Cell.t) :
  Inv w h s -> joined (removed_walls s) a b ->
  connected (disjoint_set (self s)) a b.
Proof.
  intros HI (wall & Hin & Hj).
  destruct (inv_removed _ _ _ HI wall Hin) as [Hc Hnot].
  destruct (inv_edges _ _ _ HI wall Hc) as [Hw | Hcon]; [contradiction |].
  destruct Hj as [E | E]; rewrite E in Hcon; cbn [fst snd] in Hcon;
    [assumption | now apply connected_sym].
Qed.

Lemma path_connected (w h : Z) (s : state) (a b : Cell.t) :
  Inv w h s -> in_range w h a -> path (removed_walls s) a b ->
  connected (disjoint_set (self s)) a b.
Proof.
  intros HI Ha Hp; induction Hp as [| b c _ IH Hj].
  - destruct (find_total w h _ _ (inv_ds _ _ _ HI) Ha) as (r & Hr).
    now exists r.
  - eapply connected_trans; [exact IH |].
    eapply joined_connected; eauto.
Qed.

(** X8: in every state of the loop of a width >= 1 by height >= 1 maze, two
    odd/odd cells are in one component of the disjoint set if and only if a
    chain of breached walls links them. *)
Theorem components_are_paths (w h : Z) (s : state) (a b : Cell.t) :
  1 <= w -> 1 <= h ->
  reachable w h s ->
  in_range w h a -> in_range w h b ->
  connected (disjoint_set (self s)) a b <-> path (removed_walls s) a b.
Proof.
  intros Hw Hh Hr Ha Hb; split.
  - now apply (connected_path w h).
  - apply (path_connected w h); [now apply reachable_Inv | assumption].
Qed.

Lemma components_are_paths_witness :
  exists s,
    loop_body 0 (start_state 2 2) = Ok s
    /\ (connected (disjoint_set (self s)) (Cell.mk 1 1) (Cell.mk 3 1)
        <-> path (removed_walls s) (Cell.mk 1 1) (Cell.mk 3 1)).
Proof.
  eexists; split; [cbv; reflexivity |].
  apply (components_are_paths 2 2); [lia | lia | | |].
  - apply (reach_step 2 2 (start_state 2 2) _ 0);
      [apply reach_init; vm_compute; reflexivity | vm_compute; reflexivity |
      | vm_compute; reflexivity].
    split; apply Z.leb_le; vm_compute; reflexivity.
  - repeat split; vm_compute; congruence.
  - repeat split; vm_compute; congruence.
Defined.

Lemma walk_trans (m : list (list Z)) (a b c : Cell.t) :
  walk m a b -> walk m b c -> walk m a c.
Proof.
  intros Hab Hbc; induction Hbc as [| c d _ IH Hs Hp]; [assumption |].
  eapply walk_more; eauto.
Qed.

Lemma in_range_passage (w h : Z) (s : state) (c : Cell.t) :
  Inv w h s -> in_range w h c ->
  cell_at (maze (self s)) (Cell.x c) (Cell.y c) = Ok CELL_PASSAGE.
Proof.
  intros HI (Hx & Hy & Hbx & Hby).
  rewrite (inv_cells _ _ _ HI) by lia; unfold expected.
  now rewrite (proj2 (odd_odd_spec _ _) (conj Hx Hy)).
Qed.

Lemma removed_passage (w h : Z) (s : state) (c : Cell.t) :
  Inv w h s -> In c (removed_walls s) ->
  cell_at (maze (self s)) (Cell.x c) (Cell.y c) = Ok CELL_PASSAGE.
Proof.
  intros HI Hin.
  destruct (inv_removed _ _ _ HI c Hin) as [Hc _].
  apply candidate_in_grid in Hc as [Hx Hy].
  rewrite (inv_cells _ _ _ HI) by lia; unfold expected.
  rewrite Cell_eta, (proj2 (mem_In _ _) Hin); now rewrite orb_true_r.
Qed.

Lemma beside_adjacent (w h : Z) (wall : Cell.t) :
  candidateb w h wall = true ->
  beside (fst (adjacent_cells wall)) wall
  /\ beside wall (snd (adjacent_cells wall)).
Proof.
  intros _; unfold adjacent_cells, beside.
  destruct (Cell.x wall mod 2 =? 1); cbn [fst snd Cell.x Cell.y]; lia.
Qed.

Lemma beside_sym (a b : Cell.t) : beside a b -> beside b a.
Proof. unfold beside; lia. Qed.

Lemma path_walk (w h : Z) (s : state) (a b : Cell.t) :
  Inv w h s -> in_range w h a -> path (removed_walls s) a b ->
  in_range w h b /\ walk (maze (self s)) a b.
Proof.
  intros HI Ha Hp; induction Hp as [| b c _ [IHr IHw] (wall & Hin & Hj)].
  - split; [assumption | constructor].
  - destruct (inv_removed _ _ _ HI wall Hin) as [Hc _].
    destruct (adjacent_in_range w h wall Hc) as [H1 H2].
    destruct (beside_adjacent w h wall Hc) as [B1 B2].
    assert (Hwp := removed_passage w h s wall HI Hin).
    destruct Hj as [E | E]; rewrite E in H1, H2, B1, B2; cbn [fst snd] in *.
    + split; [assumption |].
      eapply walk_more; [eapply walk_more; [exact IHw | exact B1 | exact Hwp]
                        | exact B2 | now apply (in_range_passage w h)].
    + split; [assumption |].
      eapply walk_more;
        [eapply walk_more; [exact IHw | apply beside_sym; exact B2 | exact Hwp]
        | apply beside_sym; exact B1 | now apply (in_range_passage w h)].
Qed.

(** A passage is an odd/odd cell or shares a side with one. *)
Lemma passage_anchor (w h : Z) (s : state) (c : Cell.t) :
  Inv w h s ->
  0 <= Cell.x c < 2 * w + 1 -> 0 <= Cell.y c < 2 * h + 1 ->
  cell_at (maze (self s)) (Cell.x c) (Cell.y c) = Ok CELL_PASSAGE ->
  exists a, in_range w h a /\ (a = c \/ beside a c).
Proof.
  intros HI Hx Hy Hp; rewrite (inv_cells _ _ _ HI) in Hp by assumption.
  unfold expected in Hp; rewrite Cell_eta in Hp.
  destruct (odd_odd (Cell.x c) (Cell.y c)) eqn:Hoo.
  - apply odd_odd_spec in Hoo; exists c; split; [| now left].
    unfold in_range; zlia.
  - cbn [orb] in Hp.
    destruct (mem c (removed_walls s)) eqn:Hm; [| discriminate].
    apply mem_In, (inv_removed _ _ _ HI) in Hm as [Hc _].
    exists (fst (adjacent_cells c)); split.
    + now apply (adjacent_in_range w h).
    + right; now apply (beside_adjacent w h).
Qed.

(** X9: when the loop of a width >= 1 by height >= 1 maze has ended, the
    passages of the grid form one connected region: from every passage cell
    every other passage cell can be reached by steps between passages that
    share a side. *)
Theorem maze_connected (w h : Z) (s0 s : state) (draws rest : list Z) :
  1 <= w -> 1 <= h ->
  initial_state w h = Ok s0 ->
  generation_loop draws s0 = Ok (s, rest) ->
  forall a b,
    0 <= Cell.x a < 2 * w + 1 -> 0 <= Cell.y a < 2 * h + 1 ->
    0 <= Cell.x b < 2 * w + 1 -> 0 <= Cell.y b < 2 * h + 1 ->
    cell_at (maze (self s)) (Cell.x a) (Cell.y a) = Ok CELL_PASSAGE ->
    cell_at (maze (self s)) (Cell.x b) (Cell.y b) = Ok CELL_PASSAGE ->
    walk (maze (self s)) a b.
Proof.
  intros Hw Hh H0 Hrun a b Hax Hay Hbx Hby Hpa Hpb.
  assert (H := generation_loop_reachable w h draws s0 Hw Hh (reach_init _ _ _ H0)).
  rewrite Hrun in H; destruct H as [Hr Hg].
  assert (HI := reachable_Inv w h s Hw Hh Hr).
  assert (Hone := exit_count w h s Hw Hh HI Hg).
  destruct (passage_anchor w h s a HI Hax Hay Hpa) as (a' & Ha' & Haa).
  destruct (passage_anchor w h s b HI Hbx Hby Hpb) as (b' & Hb' & Hbb).
  assert (Hcon := count_one_connected w h _ a' b' (inv_ds _ _ _ HI) Hone Ha' Hb').
  apply (connected_path w h s Hw Hh Hr) in Hcon.
  destruct (path_walk w h s a' b' HI Ha' Hcon) as [_ Hwalk].
  assert (W1 : walk (maze (self s)) a a').
  { destruct Haa as [-> | B]; [constructor |].
    eapply walk_more; [constructor | apply beside_sym; exact B
                      | now apply (in_range_passage w h)]. }
  assert (W2 : walk (maze (self s)) b' b).
  { destruct Hbb as [-> | B]; [constructor |].
    eapply walk_more; [constructor | exact B | exact Hpb]. }
  eapply walk_trans; [exact W1 |]; eapply walk_trans; eauto.
Qed.

Lemma maze_connected_witness :
  exists s,
    generation_loop [0; 0; 0] (start_state 2 2) = Ok (s, [])
    /\ forall a b,
      0 <= Cell.x a < 2 * 2 + 1 -> 0 <= Cell.y a < 2 * 2 + 1 ->
      0 <= Cell.x b < 2 * 2 + 1 -> 0 <= Cell.y b < 2 * 2 + 1 ->
      cell_at (maze (self s)) (Cell.x a) (Cell.y a) = Ok CELL_PASSAGE ->
      cell_at (maze (self s)) (Cell.x b) (Cell.y b) = Ok CELL_PASSAGE ->
      walk (maze (self s)) a b.
Proof.
  eexists; split; [cbv; reflexivity |].
  apply (maze_connected 2 2 (start_state 2 2) _ [0; 0; 0] []);
    [lia | lia | vm_compute; reflexivity | vm_compute; reflexivity].
Defined.

(** ** The window and the drawing *)

(** X10: for width >= 1 and height >= 1 the window-size arithmetic of
    [__init__] raises nothing; both sides lie between 0 and 750, one of them
    is 750, and a side is 0 exactly when the maze is more than 750 times
    longer in the other direction. *)
Theorem window_size_bounds (w h : Z) :
  1 <= w -> 1 <= h ->
  exists pw ph,
    window_size w h = Ok (pw, ph)
    /\ 0 <= pw <= 750 /\ 0 <= ph <= 750
    /\ (pw = 750 \/ ph = 750)
    /\ (pw = 0 <-> 750 * w < h)
    /\ (ph = 0 <-> 750 * h < w).
Proof.
  intros Hw Hh; unfold window_size, floordiv, WINDOW_SIZE.
  destruct (Z.ltb_spec h w).
  - destruct (Z.eqb_spec w 0); [lia |]; cbn [bind].
    exists 750, (750 * h / w); split; [reflexivity |].
    assert (H0 : 0 <= 750 * h / w) by (apply Z.div_pos; lia).
    assert (H1 : 750 * h / w <= 750)
      by (apply Z.div_le_upper_bound; nia).
    assert (H2 : 750 * h / w = 0 <-> 750 * h < w).
    { split; intros E.
      - apply Z.div_small_iff in E; lia.
      - apply Z.div_small; lia. }
    repeat split; try lia; try tauto.
  - destruct (Z.eqb_spec h 0); [lia |]; cbn [bind].
    exists (750 * w / h), 750; split; [reflexivity |].
    assert (H0 : 0 <= 750 * w / h) by (apply Z.div_pos; lia).
    assert (H1 : 750 * w / h <= 750)
      by (apply Z.div_le_upper_bound; nia).
    assert (H2 : 750 * w / h = 0 <-> 750 * w < h).
    { split; intros E.
      - apply Z.div_small_iff in E; lia.
      - apply Z.div_small; lia. }
    repeat split; try lia; try tauto.
Qed.

Lemma window_size_bounds_witness :
  exists pw ph,
    window_size 1 751 = Ok (pw, ph)
    /\ 0 <= pw <= 750 /\ 0 <= ph <= 750
    /\ (pw = 750 \/ ph = 750)
    /\ (pw = 0 <-> 750 * 1 < 751)
    /\ (ph = 0 <-> 750 * 751 < 1).
Proof. apply (window_size_bounds 1 751); lia. Defined.

(** X11: the window-size arithmetic raises exactly when it divides by zero,
    that is when height = 0 >= width or width = 0 > height, and then it
    raises ZeroDivisionError. *)
Theorem window_size_raises_iff (w h : Z) :
  (window_size w h = Raise ZeroDivisionError
   <-> (h = 0 /\ w <= 0) \/ (w = 0 /\ h < 0))
  /\ (forall e, window_size w h = Raise e -> e = ZeroDivisionError)
  /\ window_size w h <> Starved /\ window_size w h <> NotADraw.
Proof.
  unfold window_size, floordiv.
  destruct (Z.ltb_spec h w).
  - destruct (Z.eqb_spec w 0); cbn [bind].
    + split; [split; [intros _; lia | reflexivity] |].
      split; [intros e0 E; congruence |]; split; discriminate.
    + split; [split; [discriminate | lia] |].
      split; [intros e0 E; discriminate |]; split; discriminate.
  - destruct (Z.eqb_spec h 0); cbn [bind].
    + split; [split; [intros _; lia | reflexivity] |].
      split; [intros e0 E; congruence |]; split; discriminate.
    + split; [split; [discriminate | lia] |].
      split; [intros e0 E; discriminate |]; split; discriminate.
Qed.

Lemma Ok_inj {A : Type} (a b : A) : Ok a = Ok b -> a = b.
Proof. now intros [= ->]. Qed.

Lemma draw_cells_map (obj : KruskalMaze) (cs : Z) (val : Cell.t -> Z)
    (cells : list Cell.t) (canvas : list Rectangle.t) :
  (forall c, In c cells ->
     cell_at (maze obj) (Cell.x c) (Cell.y c) = Ok (val c)) ->
  draw_cells obj cs cells canvas
  = Ok (canvas
        ++ map (fun c => cell_rectangle cs (Cell.x c) (Cell.y c)
                           (fill_of (val c))) cells).
Proof.
  revert canvas; induction cells as [| c cells IH]; intros canvas Hval;
    cbn [draw_cells map].
  - now rewrite app_nil_r.
  - rewrite Hval by now left. cbn [bind].
    rewrite IH by (intros; apply Hval; now right).
    now rewrite <- app_assoc.
Qed.

Lemma fill_of_expected (removed : list Cell.t) (c : Cell.t) :
  fill_of (expected removed (Cell.x c) (Cell.y c)) = expected_fill removed c.
Proof.
  unfold expected, expected_fill; rewrite Cell_eta.
  now destruct (odd_odd (Cell.x c) (Cell.y c) || mem c removed).
Qed.

Lemma draw_maze_Inv (w h : Z) (s : state) :
  1 <= w -> 1 <= h -> Inv w h s ->
  draw_maze (self s)
  = Ok (map (fun c => cell_rectangle (750 / Z.max (2 * w + 1) (2 * h + 1))
                        (Cell.x c) (Cell.y c)
                        (expected_fill (removed_walls s) c))
            (grid_cells (2 * w + 1) (2 * h + 1))).
Proof.
  intros Hw Hh HI; unfold draw_maze, floordiv, WINDOW_SIZE.
  rewrite (inv_width _ _ _ HI), (inv_height _ _ _ HI).
  destruct (Z.eqb_spec (Z.max (2 * w + 1) (2 * h + 1)) 0); [lia |].
  cbn [bind].
  rewrite (draw_cells_map _ _
             (fun c => expected (removed_walls s) (Cell.x c) (Cell.y c))).
  - cbn [app]; f_equal; apply map_ext; intros c.
    now rewrite fill_of_expected.
  - intros c Hc; apply In_grid_cells in Hc.
    apply (inv_cells _ _ _ HI); lia.
Qed.

(** X12: in every state a run of a width >= 1 by height >= 1 maze can
    reach, [draw_maze] raises nothing and puts on the canvas one rectangle
    per grid cell, row by row: the square of side
    750 // max(2*width+1, 2*height+1) at the cell's place, white for the
    odd/odd cells and the breached walls and black for every other cell;
    no rectangle is red or green. *)
Theorem draw_maze_picture (w h : Z) (s : state) :
  1 <= w -> 1 <= h ->
  reachable w h s ->
  exists items,
    draw_maze (self s) = Ok items
    /\ items
       = map (fun c => cell_rectangle (750 / Z.max (2 * w + 1) (2 * h + 1))
                         (Cell.x c) (Cell.y c)
                         (expected_fill (removed_walls s) c))
             (grid_cells (2 * w + 1) (2 * h + 1))
    /\ len items = (2 * w + 1) * (2 * h + 1)
    /\ forall r, In r items ->
         Rectangle.fill r = black \/ Rectangle.fill r = white.
Proof.
  intros Hw Hh Hr.
  assert (HI := reachable_Inv w h s Hw Hh Hr).
  eexists; split; [apply (draw_maze_Inv w h s Hw Hh HI) |].
  split; [reflexivity |]; split.
  - rewrite len_map, len_grid_cells by lia; reflexivity.
  - intros r Hin; apply in_map_iff in Hin as (c & <- & _).
    cbn [cell_rectangle Rectangle.fill]; unfold expected_fill.
    destruct (odd_odd (Cell.x c) (Cell.y c) || mem c (removed_walls s)); auto.
Qed.

Lemma draw_maze_picture_witness :
  exists items,
    draw_maze (self (start_state 2 1)) = Ok items
    /\ items
       = map (fun c => cell_rectangle (750 / Z.max (2 * 2 + 1) (2 * 1 + 1))
                         (Cell.x c) (Cell.y c)
                         (expected_fill (removed_walls (start_state 2 1)) c))
             (grid_cells (2 * 2 + 1) (2 * 1 + 1))
    /\ len items = (2 * 2 + 1) * (2 * 1 + 1)
    /\ forall r, In r items ->
         Rectangle.fill r = black \/ Rectangle.fill r = white.
Proof.
  apply (draw_maze_picture 2 1 (start_state 2 1));
    [lia | lia | apply reach_init; vm_compute; reflexivity].
Defined.

(** X13: every rectangle [draw_maze] creates in a reachable state of a
    width >= 1 by height >= 1 maze is a square of side
    750 // max(2*width+1, 2*height+1) that lies inside the 750 by 750
    square. *)
Theorem draw_maze_fits (w h : Z) (s : state) (items : list Rectangle.t)
    (r : Rectangle.t) :
  1 <= w -> 1 <= h ->
  reachable w h s ->
  draw_maze (self s) = Ok items ->
  In r items ->
  0 <= Rectangle.x0 r /\ Rectangle.x1 r <= 750
  /\ 0 <= Rectangle.y0 r /\ Rectangle.y1 r <= 750
  /\ Rectangle.x1 r - Rectangle.x0 r = 750 / Z.max (2 * w + 1) (2 * h + 1)
  /\ Rectangle.y1 r - Rectangle.y0 r = 750 / Z.max (2 * w + 1) (2 * h + 1)
  /\ 0 <= 750 / Z.max (2 * w + 1) (2 * h + 1).
Proof.
  intros Hw Hh Hr Hd Hin.
  rewrite (draw_maze_Inv w h s Hw Hh (reachable_Inv w h s Hw Hh Hr)) in Hd.
  symmetry in Hd; apply Ok_inj in Hd; subst items.
  apply in_map_iff in Hin as (c & <- & Hc); apply In_grid_cells in Hc.
  cbn [cell_rectangle Rectangle.x0 Rectangle.x1 Rectangle.y0 Rectangle.y1].
  set (m := Z.max (2 * w + 1) (2 * h + 1)) in *.
  assert (Hm : 0 < m) by (subst m; lia).
  assert (Hcs : 0 <= 750 / m) by (apply Z.div_pos; lia).
  assert (Hle : m * (750 / m) <= 750) by (apply Z.mul_div_le; lia).
  assert (Hx : Cell.x c + 1 <= m) by (subst m; lia).
  assert (Hy : Cell.y c + 1 <= m) by (subst m; lia).
  repeat split; try nia.
Qed.

Lemma draw_maze_fits_witness :
  exists items r,
    draw_maze (self (start_state 2 1)) = Ok items
    /\ In r items
    /\ 0 <= Rectangle.x0 r /\ Rectangle.x1 r <= 750
    /\ 0 <= Rectangle.y0 r /\ Rectangle.y1 r <= 750
    /\ Rectangle.x1 r - Rectangle.x0 r = 750 / Z.max (2 * 2 + 1) (2 * 1 + 1)
    /\ Rectangle.y1 r - Rectangle.y0 r = 750 / Z.max (2 * 2 + 1) (2 * 1 + 1)
    /\ 0 <= 750 / Z.max (2 * 2 + 1) (2 * 1 + 1).
Proof.
  eexists; exists (Rectangle.mk 600 300 750 450 black).
  split; [vm_compute; reflexivity |].
  split; [cbv; tauto |].
  eapply (draw_maze_fits 2 1 (start_state 2 1) _ (Rectangle.mk 600 300 750 450 black));
    [lia | lia | apply reach_init; vm_compute; reflexivity
    | vm_compute; reflexivity | cbv; tauto].
Defined.

(** X14: when width >= 375 or height >= 375 the cell size
    750 // max(2*width+1, 2*height+1) is 0, and every rectangle [draw_maze]
    creates is empty, with all four coordinates 0: nothing of the maze is
    shown. *)
Theorem draw_maze_invisible (w h : Z) (s : state) (items : list Rectangle.t)
    (r : Rectangle.t) :
  1 <= w -> 1 <= h ->
  375 <= w \/ 375 <= h ->
  reachable w h s ->
  draw_maze (self s) = Ok items ->
  In r items ->
  Rectangle.x0 r = 0 /\ Rectangle.y0 r = 0
  /\ Rectangle.x1 r = 0 /\ Rectangle.y1 r = 0.
Proof.
  intros Hw Hh Hbig Hr Hd Hin.
  rewrite (draw_maze_Inv w h s Hw Hh (reachable_Inv w h s Hw Hh Hr)) in Hd.
  symmetry in Hd; apply Ok_inj in Hd; subst items.
  apply in_map_iff in Hin as (c & <- & _).
  cbn [cell_rectangle Rectangle.x0 Rectangle.x1 Rectangle.y0 Rectangle.y1].
  rewrite (Z.div_small 750 (Z.max (2 * w + 1) (2 * h + 1))) by lia.
  lia.
Qed.

Lemma draw_maze_invisible_witness :
  exists items r,
    draw_maze (self (start_state 375 1)) = Ok items
    /\ In r items
    /\ Rectangle.x0 r = 0 /\ Rectangle.y0 r = 0
    /\ Rectangle.x1 r = 0 /\ Rectangle.y1 r = 0.
Proof.
  eexists; exists (Rectangle.mk 0 0 0 0 black).
  split; [vm_compute; reflexivity |].
  split; [left; reflexivity |].
  eapply (draw_maze_invisible 375 1 (start_state 375 1) _
            (Rectangle.mk 0 0 0 0 black));
    [lia | lia | lia | apply reach_init; apply initial_state_eq
    | vm_compute; reflexivity | left; reflexivity].
Defined.
